(** * Hook registries, pipelines and agent workflows

    A shallow embedding of the hook-driven core of the repository:

    - [DecoratorHooks]     : hooks/python-hooks/decorator_hooks.py
                             ([HookRegistry.register], [HookRegistry.trigger]);
    - [AsyncHooks]         : hooks/python-hooks/async_hooks.py
                             ([AsyncHookRegistry], [AsyncHookContext], [AsyncPipeline]);
    - [AgentOrchestration] : hooks/ai-llm-hooks/agent_orchestration.py
                             ([AgentHook.execute], [AgentOrchestrator.execute_workflow]).

    Python callables are functions in a state-and-exception monad over the
    part of the interpreter state they can touch.  Dictionaries are [gmap]s,
    lists are lists.  The embedding comes first; what is proved about it is
    in [DecoratorHooksFacts], [AsyncHooksFacts] and
    [AgentOrchestrationFacts]. *)

From stdpp Require Import base option list gmap strings fin_maps sorting pretty.
From Stdlib Require Import QArith.
Close Scope Q_scope.

Set Default Proof Using "Type".

(** ** Python calls: state and exceptions *)

Module Py.

(** How a call ends: it returns a value or raises.  [E] stands for the
    instances of [Exception], the class named by every [except] clause of
    the modelled modules and collected by
    [asyncio.gather(return_exceptions=True)]. *)
Inductive outcome (E A : Type) : Type :=
| Returned (a : A)
| Raised (e : E).
Arguments Returned {E A} a.
Arguments Raised {E A} e.

(** A computation over interpreter state [S]. *)
Definition M (S E A : Type) : Type := S → outcome E A * S.

Section Ops.
Context {S E : Type}.

Definition ret {A} (a : A) : M S E A := λ s, (Returned a, s).

Definition raise {A} (e : E) : M S E A := λ s, (Raised e, s).

Definition bind {A B} (c : M S E A) (k : A → M S E B) : M S E B :=
  λ s, match c s with
       | (Returned a, s') => k a s'
       | (Raised e, s') => (Raised e, s')
       end.

(** [try: body  except Exception as e: handler e] *)
Definition try_except {A} (body : M S E A) (handler : E → M S E A) : M S E A :=
  λ s, match body s with
       | (Returned a, s') => (Returned a, s')
       | (Raised e, s') => handler e s'
       end.

(** [for x in xs: body x], the values of [body] being dropped. *)
Fixpoint for_each {A B} (xs : list A) (body : A → M S E B) : M S E unit :=
  match xs with
  | [] => ret ()
  | x :: rest => bind (body x) (λ _, for_each rest body)
  end.

(** What [asyncio.gather(..., return_exceptions=True)] puts in a slot:
    the awaitable's result, or the exception object it raised. *)
Inductive slot (A : Type) : Type :=
| Value (a : A)
| ExcObj (e : E).

Definition slot_of {A} (o : outcome E A) : slot A :=
  match o with
  | Returned a => Value _ a
  | Raised e => ExcObj _ e
  end.

(** [await asyncio.gather] over [tasks] with [return_exceptions=True]: every
    awaitable is driven to its end and the outcomes are returned in the
    order of [tasks].  Tasks start in list order; a coroutine is taken as
    one step of the cooperative scheduler, so the interleaving between
    its own suspension points is not represented. *)
Fixpoint gather {A} (tasks : list (M S E A)) : M S E (list (slot A)) :=
  match tasks with
  | [] => ret []
  | task :: rest =>
      λ s, let '(o, s') := task s in
           bind (gather rest) (λ rs, ret (slot_of o :: rs)) s'
  end.

Definition returned {A} (o : outcome E A) : option A :=
  match o with Returned a => Some a | Raised _ => None end.

Definition raised {A} (o : outcome E A) : option E :=
  match o with Returned _ => None | Raised e => Some e end.

End Ops.

Arguments Value {E A} a.
Arguments ExcObj {E A} e.

End Py.

Import Py.

Notation "'let*' x ':=' c 'in' k" := (bind c (λ x, k))
  (at level 10, x name, c at level 200, k at level 200, only parsing).


(** ** decorator_hooks.py *)

Module DecoratorHooks.

Inductive HookPriority : Set := LOWEST | LOW | NORMAL | HIGH | HIGHEST.

(** [HookPriority.<member>.value] *)
Definition value (p : HookPriority) : Z :=
  match p with
  | LOWEST => 0 | LOW => 1 | NORMAL => 2 | HIGH => 3 | HIGHEST => 4
  end.

#[global] Instance HookPriority_eq_dec : EqDecision HookPriority.
Proof. solve_decision. Defined.

(** [list.sort(key=key, reverse=True)].  The built-in sort is stable, and
    [reverse=True] keeps the original order of elements with equal keys:
    an element goes in front of the first one whose key is not larger. *)
Section Sort.
Context {A : Type} (key : A → Z).

Fixpoint insert_desc (x : A) (l : list A) : list A :=
  match l with
  | [] => [x]
  | y :: l' => if (key y <=? key x)%Z then x :: y :: l' else y :: insert_desc x l'
  end.

Fixpoint sort_desc (l : list A) : list A :=
  match l with
  | [] => []
  | x :: l' => insert_desc x (sort_desc l')
  end.

(** The order the sort leaves the keys in. *)
Definition desc (a b : A) : Prop := (key b ≤ key a)%Z.
End Sort.

Section Registry.
Context {W Args Val Exn : Type}.

(** [str(e)], as interpolated in the log lines. *)
Variable str : Exn → string.

(** A Python function: its [__name__] and what calling it with
    [*args, **kwargs] does to the world outside the registry. *)
Record PyFunc : Type := {
  __name__ : string;
  call : Args → W → outcome Exn Val * W
}.

Record HookMetadata : Type := {
  func : PyFunc;
  priority : HookPriority;
  name : string;
  enabled : bool
}.

Record HookRegistry : Type := {
  _hooks : gmap string (list HookMetadata);
  _global_hooks : list HookMetadata
}.

(** [HookRegistry.__init__] *)
Definition init : HookRegistry := {| _hooks := ∅; _global_hooks := [] |}.

Definition sort_hooks : list HookMetadata → list HookMetadata :=
  sort_desc (λ h, value (priority h)).

(** [a] may come before [b] in a sorted hook list. *)
Definition by_value (a b : HookMetadata) : Prop :=
  (value (priority b) ≤ value (priority a))%Z.

(** [registry.register(event, priority, name, enabled)(func)] *)
Definition register (event : option string) (priority : HookPriority)
    (name : option string) (enabled : bool) (func : PyFunc)
    (self : HookRegistry) : HookRegistry :=
  let hook_name :=
    match name with
    | Some n => if decide (n = "") then __name__ func else n
    | None => __name__ func
    end in
  let metadata :=
    {| func := func; priority := priority; name := hook_name; enabled := enabled |} in
  match event with
  | None =>
      {| _hooks := _hooks self;
         _global_hooks := sort_hooks (_global_hooks self ++ [metadata]) |}
  | Some event =>
      let hooks := default [] (_hooks self !! event) in
      {| _hooks := <[event := sort_hooks (hooks ++ [metadata])]> (_hooks self);
         _global_hooks := _global_hooks self |}
  end.

(** The interpreter state a [trigger] call runs in: the registry object,
    the world the hook functions act on, the lines sent to [logger.error],
    and (ghost) the calls made to hook functions with how each ended. *)
Record State : Type := {
  registry : HookRegistry;
  world : W;
  logged : list string;
  calls : list (HookMetadata * outcome Exn Val)
}.

Abbreviation Run := (M State Exn).

(** [hook.func] on [args] *)
Definition call_hook (hook : HookMetadata) (args : Args) : Run Val :=
  λ s, let '(o, w) := call (func hook) args (world s) in
       (o, {| registry := registry s; world := w; logged := logged s;
              calls := calls s ++ [(hook, o)] |}).

(** [logger.error(msg)] *)
Definition logger_error (msg : string) : Run unit :=
  λ s, (Returned (),
        {| registry := registry s; world := world s;
           logged := logged s ++ [msg]; calls := calls s |}).

Definition global_msg (hook : HookMetadata) (e : Exn) : string :=
  "Error in global hook " +:+ name hook +:+ ": " +:+ str e.

Definition event_msg (event : string) (hook : HookMetadata) (e : Exn) : string :=
  "Error in hook " +:+ name hook +:+ " for event " +:+ event +:+ ": " +:+ str e.

(** The body shared by the two [for hook in ...] loops of [trigger];
    [results] is the list appended to. *)
Fixpoint run_loop (msg : HookMetadata → Exn → string) (hooks : list HookMetadata)
    (args : Args) (results : list Val) : Run (list Val) :=
  match hooks with
  | [] => ret results
  | hook :: rest =>
      let* results :=
        (if enabled hook then
           try_except
             (let* result := call_hook hook args in ret (results ++ [result]))
             (λ e, let* _ := logger_error (msg hook e) in ret results)
         else ret results) in
      run_loop msg rest args results
  end.

(** [registry.trigger(event, *args, **kwargs)] *)
Definition trigger (event : string) (args : Args) : Run (list Val) :=
  λ s,
    let self := registry s in
    (let* results := run_loop global_msg (_global_hooks self) args [] in
     match _hooks self !! event with
     | Some hooks => run_loop (event_msg event) hooks args results
     | None => ret results
     end) s.

(** *** Registration sequences *)

Record Registration : Type := {
  reg_event : option string;
  reg_priority : HookPriority;
  reg_name : option string;
  reg_enabled : bool;
  reg_func : PyFunc
}.

Definition apply_registration (self : HookRegistry) (r : Registration) : HookRegistry :=
  register (reg_event r) (reg_priority r) (reg_name r) (reg_enabled r) (reg_func r) self.

Definition register_all (rs : list Registration) : HookRegistry :=
  foldl apply_registration init rs.

(** The record a registration creates. *)
Definition metadata_of (r : Registration) : HookMetadata :=
  {| func := reg_func r; priority := reg_priority r;
     name := match reg_name r with
             | Some n => if decide (n = "") then __name__ (reg_func r) else n
             | None => __name__ (reg_func r)
             end;
     enabled := reg_enabled r |}.

(** The records registered for [event] ([None]: globally), in
    registration order. *)
Definition registered_for (event : option string) (rs : list Registration)
    : list HookMetadata :=
  metadata_of <$> filter (λ r, reg_event r = event) rs.

(** The firing order of the specification for one group of hooks:
    the enabled records among [registered], by non-increasing priority,
    those of equal priority in registration order. *)
Definition fires_by_priority (registered fired : list HookMetadata) : Prop :=
  StronglySorted by_value fired
  ∧ ∀ p : HookPriority,
      filter (λ h, priority h = p) fired
      = filter (λ h, priority h = p) (filter (λ h, enabled h = true) registered).

(** The list [trigger] iterates for [event] ([None]: the global list). *)
Definition hooks_for (event : option string) (self : HookRegistry) : list HookMetadata :=
  match event with
  | None => _global_hooks self
  | Some event => default [] (_hooks self !! event)
  end.

(** Reading the ghost call list: the values of the calls that returned,
    and the log lines of the calls that raised. *)
Definition successes (cs : list (HookMetadata * outcome Exn Val)) : list Val :=
  omap (λ c, returned c.2) cs.

Definition failures (msg : HookMetadata → Exn → string)
    (cs : list (HookMetadata * outcome Exn Val)) : list string :=
  omap (λ c, msg c.1 <$> raised c.2) cs.

End Registry.

(** *** The scenarios of the specification *)

Section Scenarios.
(** Hooks over integers; the world counts the calls made. *)
Definition returning (n : string) (f : Z → Z) : @PyFunc nat Z Z string :=
  {| __name__ := n; call := λ x w, (Returned (f x), S w) |}.

Definition raising (n : string) (e : string) : @PyFunc nat Z Z string :=
  {| __name__ := n; call := λ x w, (Raised e, S w) |}.

Definition start (r : HookRegistry) : @State nat Z Z string :=
  {| registry := r; world := 0; logged := []; calls := [] |}.

(** "a" (HIGH) and "b" (LOW) on event "e", registered low first. *)
Definition reg_ab : HookRegistry :=
  register (Some "e") HIGH None true (returning "a" (λ x, x + 1)%Z)
    (register (Some "e") LOW None true (returning "b" (λ x, x * 2)%Z) init).

(** Three hooks of one priority, the second of which raises. *)
Definition reg_123 : HookRegistry :=
  register (Some "e") NORMAL None true (returning "h3" (λ x, x + 3)%Z)
    (register (Some "e") NORMAL None true (raising "h2" "boom")
       (register (Some "e") NORMAL None true (returning "h1" (λ x, x + 1)%Z) init)).

End Scenarios.

(** *** Enabling and disabling by name *)

Section Toggle.
Context {W Args Val Exn : Type}.

Local Abbreviation HookMetadata := (@HookMetadata W Args Val Exn).
Local Abbreviation HookRegistry := (@HookRegistry W Args Val Exn).
Local Abbreviation Registration := (@Registration W Args Val Exn).

(** The body of the inner loop of [enable_hook] and [disable_hook]:
    [if hook.name == name: hook.enabled = flag]. *)
Definition set_enabled (n : string) (flag : bool) (hook : HookMetadata) : HookMetadata :=
  if decide (name hook = n)
  then {| func := func hook; priority := priority hook; name := name hook;
          enabled := flag |}
  else hook.

(** [registry.enable_hook(name)]: every record of the global list and of
    every event's list is visited. *)
Definition enable_hook (n : string) (self : HookRegistry) : HookRegistry :=
  {| _hooks := fmap (M := list) (set_enabled n true) <$> _hooks self;
     _global_hooks := set_enabled n true <$> _global_hooks self |}.

(** [registry.disable_hook(name)] *)
Definition disable_hook (n : string) (self : HookRegistry) : HookRegistry :=
  {| _hooks := fmap (M := list) (set_enabled n false) <$> _hooks self;
     _global_hooks := set_enabled n false <$> _global_hooks self |}.

(** The calls that change a registry. *)
Inductive Op : Type :=
| Register (r : Registration)
| Enable (n : string)
| Disable (n : string).

Definition apply_op (self : HookRegistry) (op : Op) : HookRegistry :=
  match op with
  | Register r => apply_registration self r
  | Enable n => enable_hook n self
  | Disable n => disable_hook n self
  end.

Definition run_ops (ops : list Op) : HookRegistry := foldl apply_op init ops.

Definition registrations (ops : list Op) : list Registration :=
  omap (λ op, match op with Register r => Some r | _ => None end) ops.

(** A record without its [enabled] flag. *)
Definition unflagged (hook : HookMetadata) : PyFunc * HookPriority * string :=
  (func hook, priority hook, name hook).

(** The state [s] with another registry object. *)
Definition with_registry (r : HookRegistry) (s : @State W Args Val Exn) :=
  {| registry := r; world := world s; logged := logged s; calls := calls s |}.

End Toggle.

(** A registry with one enabled hook, "h1", on event "e". *)
Definition reg_one : @HookRegistry nat Z Z string :=
  register (Some "e") NORMAL None true (returning "h1" (λ x, x + 1)%Z) init.

End DecoratorHooks.


(** ** async_hooks.py *)

Module AsyncHooks.

(** *** AsyncHookRegistry *)

Section Registry.
Context {W Args Val Exn : Type}.

(** A registered hook is a coroutine function: calling it with the trigger's
    arguments builds a coroutine object and runs nothing; awaiting that
    object runs the body, which returns or raises. *)
Definition Hook : Type := Args → W → outcome Exn Val * W.

(** The interpreter state a [trigger] call runs in: the world the hooks act
    on and (ghost) the hook bodies run so far with how each ended. *)
Record State : Type := {
  world : W;
  calls : list (Hook * outcome Exn Val)
}.

Abbreviation Run := (M State Exn).

Record AsyncHookRegistry : Type := {
  _hooks : gmap string (list Hook);
  _pre_hooks : gmap string (list Hook);
  _post_hooks : gmap string (list Hook)
}.

(** [AsyncHookRegistry.__init__] *)
Definition init : AsyncHookRegistry :=
  {| _hooks := ∅; _pre_hooks := ∅; _post_hooks := ∅ |}.

Definition append_hook (event : string) (hook : Hook)
    (m : gmap string (list Hook)) : gmap string (list Hook) :=
  <[event := default [] (m !! event) ++ [hook]]> m.

Definition register (event : string) (hook : Hook) (self : AsyncHookRegistry) :=
  {| _hooks := append_hook event hook (_hooks self);
     _pre_hooks := _pre_hooks self; _post_hooks := _post_hooks self |}.

Definition register_pre (event : string) (hook : Hook) (self : AsyncHookRegistry) :=
  {| _hooks := _hooks self;
     _pre_hooks := append_hook event hook (_pre_hooks self);
     _post_hooks := _post_hooks self |}.

Definition register_post (event : string) (hook : Hook) (self : AsyncHookRegistry) :=
  {| _hooks := _hooks self; _pre_hooks := _pre_hooks self;
     _post_hooks := append_hook event hook (_post_hooks self) |}.

(** The coroutine object [hook] makes of the arguments. *)
Definition coroutine (hook : Hook) (args : Args) : Run Val :=
  λ s, let '(o, w) := hook args (world s) in
       (o, {| world := w; calls := calls s ++ [(hook, o)] |}).

(** The sequential branch of [run_hooks]. *)
Fixpoint run_sequential (hook_list : list Hook) (args : Args)
    (results : list (@slot Exn Val)) : Run (list (@slot Exn Val)) :=
  match hook_list with
  | [] => ret results
  | hook :: rest =>
      let* result := coroutine hook args in
      run_sequential rest args (results ++ [Value result])
  end.

(** [run_hooks(hook_list)], the function nested in [trigger]; it closes over
    [args] and [concurrent]. *)
Definition run_hooks (concurrent : bool) (args : Args) (hook_list : list Hook)
    : Run (list (@slot Exn Val)) :=
  if concurrent then
    let tasks := (λ hook, coroutine hook args) <$> hook_list in
    gather tasks
  else
    run_sequential hook_list args [].

(** The truth value Python gives [timeout] in [if timeout:]; the number of
    seconds is a rational here. *)
Definition truthy (timeout : option Q) : bool :=
  match timeout with
  | None => false
  | Some t => negb (Qeq_bool t 0)
  end.

(** [asyncio.wait_for(aw, timeout=t)] belongs to the event loop; [trigger] is
    stated over any implementation of it. *)
Variable wait_for :
  Run (list (@slot Exn Val)) → option Q → Run (list (@slot Exn Val)).

(** The dictionary [trigger] returns, keys ['pre'], ['main'], ['post']. *)
Record Results : Type := {
  pre : list (@slot Exn Val);
  main : list (@slot Exn Val);
  post : list (@slot Exn Val)
}.

Definition run_pre (self : AsyncHookRegistry) (event : string) (args : Args)
    (concurrent : bool) : Run (list (@slot Exn Val)) :=
  match _pre_hooks self !! event with
  | Some hooks => run_hooks concurrent args hooks
  | None => ret []
  end.

Definition run_main (self : AsyncHookRegistry) (event : string) (args : Args)
    (concurrent : bool) (timeout : option Q) : Run (list (@slot Exn Val)) :=
  match _hooks self !! event with
  | Some hooks =>
      if truthy timeout
      then wait_for (run_hooks concurrent args hooks) timeout
      else run_hooks concurrent args hooks
  | None => ret []
  end.

Definition run_post (self : AsyncHookRegistry) (event : string) (args : Args)
    (concurrent : bool) : Run (list (@slot Exn Val)) :=
  match _post_hooks self !! event with
  | Some hooks => run_hooks concurrent args hooks
  | None => ret []
  end.

(** [await registry.trigger(event, *args, concurrent=..., timeout=...)] *)
Definition trigger (self : AsyncHookRegistry) (event : string) (args : Args)
    (concurrent : bool) (timeout : option Q) : Run Results :=
  let* pre_results := run_pre self event args concurrent in
  let* main_results := run_main self event args concurrent timeout in
  let* post_results := run_post self event args concurrent in
  ret {| pre := pre_results; main := main_results; post := post_results |}.

(** The hooks a group holds for [event]; none when the event is not a key. *)
Definition group (m : gmap string (list Hook)) (event : string) : list Hook :=
  default [] (m !! event).

End Registry.

(** *** AsyncHookContext *)

Section HookContext.
Context {W Val Exn : Type}.

(** What awaiting a setup hook gives: a [dict], or any other object. *)
Inductive SetupResult : Type :=
| IsDict (d : gmap string Val)
| NotDict (v : Val).

Definition SetupHook : Type := W → outcome Exn SetupResult * W.

(** A teardown hook is handed [self._resources], the dictionary object
    itself: it reads the current map and may change it. *)
Definition TeardownHook : Type :=
  gmap string Val → W → outcome Exn Val * (gmap string Val * W).

Record AsyncHookContext : Type := {
  name : string;
  _setup_hooks : list SetupHook;
  _teardown_hooks : list TeardownHook;
  _resources : gmap string Val
}.

(** [AsyncHookContext(name)] *)
Definition new_context (name : string) : AsyncHookContext :=
  {| name := name; _setup_hooks := []; _teardown_hooks := []; _resources := ∅ |}.

Definition setup (hook : SetupHook) (self : AsyncHookContext) : AsyncHookContext :=
  {| name := name self; _setup_hooks := _setup_hooks self ++ [hook];
     _teardown_hooks := _teardown_hooks self; _resources := _resources self |}.

Definition teardown (hook : TeardownHook) (self : AsyncHookContext) : AsyncHookContext :=
  {| name := name self; _setup_hooks := _setup_hooks self;
     _teardown_hooks := _teardown_hooks self ++ [hook];
     _resources := _resources self |}.

(** The context object and the world its hooks act on. *)
Record ScopeState : Type := {
  ctx : AsyncHookContext;
  outside : W
}.

Definition with_resources (r : gmap string Val) (self : AsyncHookContext) :=
  {| name := name self; _setup_hooks := _setup_hooks self;
     _teardown_hooks := _teardown_hooks self; _resources := r |}.

(** [await hook()] *)
Definition await_setup (hook : SetupHook) : M ScopeState Exn SetupResult :=
  λ s, let '(o, w) := hook (outside s) in (o, {| ctx := ctx s; outside := w |}).

(** [self._resources.update(result)]: the keys of [result] win. *)
Definition resources_update (result : gmap string Val) : M ScopeState Exn unit :=
  λ s, (Returned (),
        {| ctx := with_resources (result ∪ _resources (ctx s)) (ctx s);
           outside := outside s |}).

Definition __aenter__ : M ScopeState Exn unit :=
  λ s, for_each (_setup_hooks (ctx s))
         (λ hook, let* result := await_setup hook in
                  match result with
                  | IsDict d => resources_update d
                  | NotDict _ => ret ()
                  end) s.

(** [await hook(self._resources)] *)
Definition await_teardown (hook : TeardownHook) : M ScopeState Exn Val :=
  λ s, let '(o, (r, w)) := hook (_resources (ctx s)) (outside s) in
       (o, {| ctx := with_resources r (ctx s); outside := w |}).

(** [__aexit__(exc_type, exc_val, exc_tb)]; the three arguments are not
    read.  The value returned is [False]. *)
Definition __aexit__ : M ScopeState Exn bool :=
  λ s, (let* _ := for_each (rev (_teardown_hooks (ctx s))) await_teardown in
        ret false) s.

(** The teardown sweep in words: the hooks are taken one after the other,
    each is handed the resource map as it is by then, and the first one to
    raise ends the sweep. *)
Inductive teardown_sweep :
    list TeardownHook → ScopeState → outcome Exn unit * ScopeState → Prop :=
| sweep_done s :
    teardown_sweep [] s (Returned (), s)
| sweep_next hook rest s v r w res :
    hook (_resources (ctx s)) (outside s) = (Returned v, (r, w)) →
    teardown_sweep rest {| ctx := with_resources r (ctx s); outside := w |} res →
    teardown_sweep (hook :: rest) s res
| sweep_raise hook rest s e r w :
    hook (_resources (ctx s)) (outside s) = (Raised e, (r, w)) →
    teardown_sweep (hook :: rest) s
      (Raised e, {| ctx := with_resources r (ctx s); outside := w |}).

End HookContext.

(** *** AsyncPipeline *)

Section Pipeline.
Context {W Val Exn : Type}.

(** A stage: a plain function or a coroutine function
    ([asyncio.iscoroutinefunction]), and what running it on a value does. *)
Record Stage : Type := {
  iscoroutinefunction : bool;
  apply : Val → W → outcome Exn Val * W
}.

(** An error handler, by what calling it gives.  The call of a coroutine
    function ([async def]) gives a coroutine object, whose body runs when it
    is awaited; the call of a plain function ([def], [lambda]) runs the body
    and gives what the body returned, a value, which cannot be awaited. *)
Inductive Handler : Type :=
| async_def (body : Val → Exn → W → outcome Exn Val * W)
| plain_def (body : Val → Exn → W → outcome Exn Val * W).

(** The body of a handler, run on the current value and the exception. *)
Definition invoke (handler : Handler) : Val → Exn → W → outcome Exn Val * W :=
  match handler with
  | async_def body => body
  | plain_def body => body
  end.

(** The [TypeError] that [await v] raises for a value [v] that is not
    awaitable. *)
Variable not_awaitable : Val → Exn.

Record AsyncPipeline : Type := {
  _stages : list Stage;
  _error_handlers : gmap nat Handler
}.

(** [AsyncPipeline()] *)
Definition new_pipeline : AsyncPipeline := {| _stages := []; _error_handlers := ∅ |}.

Definition add_stage (stage : Stage) (error_handler : option Handler)
    (self : AsyncPipeline) : AsyncPipeline :=
  let index := length (_stages self) in
  {| _stages := _stages self ++ [stage];
     _error_handlers :=
       match error_handler with
       | Some handler => <[index := handler]> (_error_handlers self)
       | None => _error_handlers self
       end |}.

Definition await {A} (c : M W Exn A) : M W Exn A := c.

(** [await handler(current_data, e)]: the call first, then the [await] of
    what it gave. *)
Definition await_call (handler : Handler) (current_data : Val) (e : Exn)
    : M W Exn Val :=
  match handler with
  | async_def body => await (body current_data e)
  | plain_def body =>
      let* result := body current_data e in
      raise (not_awaitable result)
  end.

(** The loop of [process] over [enumerate(self._stages)], from index [i]. *)
Fixpoint process_from (self : AsyncPipeline) (i : nat) (stages : list Stage)
    (current_data : Val) : M W Exn Val :=
  match stages with
  | [] => ret current_data
  | stage :: rest =>
      let* current_data :=
        try_except
          (if iscoroutinefunction stage
           then await (apply stage current_data)
           else apply stage current_data)
          (λ e, match _error_handlers self !! i with
                | Some handler => await_call handler current_data e
                | None => raise e
                end) in
      process_from self (S i) rest current_data
  end.

(** [await pipeline.process(data)] *)
Definition process (self : AsyncPipeline) (data : Val) : M W Exn Val :=
  process_from self 0 (_stages self) data.

(** [process] in words, from stage [i] on with current value [v]: a handler
    is invoked, and what it returns is the next current value. *)
Inductive processes (self : AsyncPipeline) :
    nat → Val → W → outcome Exn Val * W → Prop :=
| proc_end i v w :
    _stages self !! i = None →
    processes self i v w (Returned v, w)
| proc_stage i stage v w v' w' res :
    _stages self !! i = Some stage →
    apply stage v w = (Returned v', w') →
    processes self (S i) v' w' res →
    processes self i v w res
| proc_recover i stage (handler : Handler) v w e w' v' w'' res :
    _stages self !! i = Some stage →
    apply stage v w = (Raised e, w') →
    _error_handlers self !! i = Some handler →
    invoke handler v e w' = (Returned v', w'') →
    processes self (S i) v' w'' res →
    processes self i v w res
| proc_handler_raises i stage (handler : Handler) v w e w' e' w'' :
    _stages self !! i = Some stage →
    apply stage v w = (Raised e, w') →
    _error_handlers self !! i = Some handler →
    invoke handler v e w' = (Raised e', w'') →
    processes self i v w (Raised e', w'')
| proc_abort i stage v w e w' :
    _stages self !! i = Some stage →
    apply stage v w = (Raised e, w') →
    _error_handlers self !! i = None →
    processes self i v w (Raised e, w').

(** Whether what calling the handler gives can be awaited. *)
Definition gives_awaitable (handler : Handler) : bool :=
  match handler with
  | async_def _ => true
  | plain_def _ => false
  end.

End Pipeline.

(** *** Scenarios *)

Section Scenarios.
(** Hooks on an integer; each body leaves its tag in the world. *)
Definition ok (tag : string) (f : Z → Z) : @Hook (list string) Z Z string :=
  λ x w, (Returned (f x), w ++ [tag]).

Definition bad (tag : string) (e : string) : @Hook (list string) Z Z string :=
  λ x w, (Raised e, w ++ [tag]).

Definition start : @State (list string) Z Z string := {| world := []; calls := [] |}.

(** [asyncio.wait_for] on a loop where the awaited hooks take no time: a
    positive deadline is never reached, and with [timeout <= 0] the
    awaitable, which has not started, is cancelled and [TimeoutError]
    raised. *)
Definition wait_for_idle {A} (aw : M (@State (list string) Z Z string) string A)
    (timeout : option Q) : M (@State (list string) Z Z string) string A :=
  match timeout with
  | None => aw
  | Some t => if Qle_bool t 0 then raise "TimeoutError" else aw
  end.

Definition h1 := ok "h1" (λ x, x + 1)%Z.
Definition h2 := bad "h2" "boom".
Definition h3 := ok "h3" (λ x, x + 3)%Z.

(** The pre group of "e" is [h2; h3], its main group [h1]. *)
Definition reg_pre_fails : AsyncHookRegistry :=
  register "e" h1 (register_pre "e" h3 (register_pre "e" h2 init)).

(** The main group of "e" is [h1]. *)
Definition reg_main : AsyncHookRegistry := register "e" h1 init.

(** Three teardown hooks, the second of which raises. *)
Definition t_ok (tag : string) : @TeardownHook (list string) Z string :=
  λ r w, (Returned 0%Z, (r, w ++ [tag])).

Definition t_bad (tag : string) (e : string) : @TeardownHook (list string) Z string :=
  λ r w, (Raised e, (r, w ++ [tag])).

Definition scope3 : AsyncHookContext :=
  teardown (t_ok "t3") (teardown (t_bad "t2" "boom") (teardown (t_ok "t1")
    (new_context "scope"))).

(** The three-stage pipeline of the specification: stage 2 raises; with a
    handler returning 7 the result is stage 3 of 7, without one stage 3 is
    never run.  The world counts the stages and handlers run. *)
Definition stage (f : Z → Z) : @Stage nat Z string :=
  {| iscoroutinefunction := false; apply := λ x w, (Returned (f x), S w) |}.

Definition failing_stage (e : string) : @Stage nat Z string :=
  {| iscoroutinefunction := true; apply := λ x w, (Raised e, S w) |}.

Definition fallback (v : Z) : @Handler nat Z string :=
  async_def (λ x e w, (Returned v, S w)).

(** The same handler written as a plain function, [lambda data, e: v]. *)
Definition plain_fallback (v : Z) : @Handler nat Z string :=
  plain_def (λ x e w, (Returned v, S w)).

(** [await] on an [int]. *)
Definition await_int (v : Z) : string :=
  "TypeError: object int can't be used in 'await' expression".

Definition pipeline_recovering : AsyncPipeline :=
  add_stage (stage (λ x, x * 10)%Z) None
    (add_stage (failing_stage "bad") (Some (fallback 7%Z))
       (add_stage (stage (λ x, x + 1)%Z) None new_pipeline)).

Definition pipeline_plain_handler : AsyncPipeline :=
  add_stage (stage (λ x, x * 10)%Z) None
    (add_stage (failing_stage "bad") (Some (plain_fallback 7%Z))
       (add_stage (stage (λ x, x + 1)%Z) None new_pipeline)).

Definition pipeline_aborting : AsyncPipeline :=
  add_stage (stage (λ x, x * 10)%Z) None
    (add_stage (failing_stage "bad") None
       (add_stage (stage (λ x, x + 1)%Z) None new_pipeline)).

End Scenarios.

(** *** The deadline of the main group *)

Section Deadline.
Context {W Args Val Exn : Type}.

(** What [asyncio.wait_for(aw, timeout)] does, whatever the loop and the
    clock: either [aw] finishes within the deadline, and awaiting [wait_for]
    gives what awaiting [aw] gives, or the deadline is reached first, [aw] is
    cancelled and [TimeoutError] is raised. *)
Definition finishes_or_times_out (TimeoutError : Exn)
    (wait_for : M (@State W Args Val Exn) Exn (list (@slot Exn Val)) → option Q
                → M (@State W Args Val Exn) Exn (list (@slot Exn Val))) : Prop :=
  ∀ aw timeout s,
    wait_for aw timeout s = aw s
    ∨ ∃ s', wait_for aw timeout s = (Raised TimeoutError, s').

End Deadline.

(** *** Registries built by registration calls *)

Section Registrations.
Context {W Args Val Exn : Type}.

Local Abbreviation Hook := (@Hook W Args Val Exn).
Local Abbreviation AsyncHookRegistry := (@AsyncHookRegistry W Args Val Exn).

(** A call of [register], [register_pre] or [register_post]. *)
Inductive Registered : Type :=
| AsMain (event : string) (hook : Hook)
| AsPre (event : string) (hook : Hook)
| AsPost (event : string) (hook : Hook).

Definition apply_registered (self : AsyncHookRegistry) (r : Registered)
    : AsyncHookRegistry :=
  match r with
  | AsMain event hook => register event hook self
  | AsPre event hook => register_pre event hook self
  | AsPost event hook => register_post event hook self
  end.

Definition registry_of (rs : list Registered) : AsyncHookRegistry :=
  foldl apply_registered init rs.

(** The hooks given to [register] for [event], in call order; likewise
    for [register_pre] and [register_post]. *)
Definition main_of (event : string) (rs : list Registered) : list Hook :=
  omap (λ r, match r with
             | AsMain e hook => if decide (e = event) then Some hook else None
             | _ => None
             end) rs.

Definition pre_of (event : string) (rs : list Registered) : list Hook :=
  omap (λ r, match r with
             | AsPre e hook => if decide (e = event) then Some hook else None
             | _ => None
             end) rs.

Definition post_of (event : string) (rs : list Registered) : list Hook :=
  omap (λ r, match r with
             | AsPost e hook => if decide (e = event) then Some hook else None
             | _ => None
             end) rs.

End Registrations.

(** *** The scope of an [AsyncHookContext] *)

Section Scope.
Context {W Val Exn : Type}.

Local Abbreviation AsyncHookContext := (@AsyncHookContext W Val Exn).
Local Abbreviation ScopeState := (@ScopeState W Val Exn).
Local Abbreviation SetupHook := (@SetupHook W Val Exn).

(** [ctx.get_resource(key)]: [None] when the key is absent. *)
Definition get_resource (key : string) (self : AsyncHookContext) : option Val :=
  _resources self !! key.

(** The body of the loop of [__aenter__]. *)
Definition setup_step (hook : SetupHook) : M ScopeState Exn unit :=
  let* result := await_setup hook in
  match result with
  | IsDict d => resources_update d
  | NotDict _ => ret ()
  end.

(** [async with ctx: body], as the language runs it: [__aenter__] is
    awaited; the body runs only when it returned; then [__aexit__] is
    awaited, and an exception of the body is raised again unless [__aexit__]
    returned a true value.  The statement gives [None] when an exception of
    the body was suppressed. *)
Definition async_with {A} (body : M ScopeState Exn A) : M ScopeState Exn (option A) :=
  λ s,
    match __aenter__ s with
    | (Raised e, s1) => (Raised e, s1)
    | (Returned _, s1) =>
        match body s1 with
        | (Returned a, s2) =>
            match __aexit__ s2 with
            | (Returned _, s3) => (Returned (Some a), s3)
            | (Raised e, s3) => (Raised e, s3)
            end
        | (Raised e, s2) =>
            match __aexit__ s2 with
            | (Returned suppress, s3) =>
                if suppress then (Returned None, s3) else (Raised e, s3)
            | (Raised e', s3) => (Raised e', s3)
            end
        end
    end.

End Scope.

(** *** Pipelines built by [add_stage] *)

Section Building.
Context {W Val Exn : Type}.

Local Abbreviation Stage := (@Stage W Val Exn).
Local Abbreviation Handler := (@Handler W Val Exn).
Local Abbreviation AsyncPipeline := (@AsyncPipeline W Val Exn).

Variable not_awaitable : Val → Exn.

(** [AsyncPipeline().add_stage(s1, h1).add_stage(s2, h2)...] *)
Definition build (specs : list (Stage * option Handler)) : AsyncPipeline :=
  foldl (λ self spec, add_stage spec.1 spec.2 self) new_pipeline specs.

(** One stage with the handler it was added with, on a value. *)
Definition run_stage (stage : Stage) (handler : option Handler) (v : Val)
    : M W Exn Val :=
  try_except (apply stage v)
    (λ e, match handler with
          | Some handler => await_call not_awaitable handler v e
          | None => raise e
          end).

(** A stage made of a plain function that returns, such as
    [lambda x: x * 2]. *)
Definition plain_stage (f : Val → Val) : Stage :=
  {| iscoroutinefunction := false; apply := λ x w, (Returned (f x), w) |}.

(** [AsyncPipeline().add_stage(f1).add_stage(f2)...], no stage having a
    handler. *)
Definition plain_pipeline (fs : list (Val → Val)) : AsyncPipeline :=
  build ((λ f, (plain_stage f, None)) <$> fs).

(** [pipeline.process_stream(data_stream)], the stream being the items
    it will deliver: the outputs yielded, and the exception that ended the
    generator if processing an item raised. *)
Fixpoint process_stream (self : AsyncPipeline) (data_stream : list Val)
    : W → (list Val * option Exn) * W :=
  match data_stream with
  | [] => λ w, (([], None), w)
  | item :: rest =>
      λ w, match process not_awaitable self item w with
           | (Returned out, w') =>
               let '((outs, end_), w'') := process_stream self rest w' in
               ((out :: outs, end_), w'')
           | (Raised e, w') => (([], Some e), w')
           end
  end.

End Building.

(** *** Scenarios for registrations and scopes *)

(** "e" has pre hook [h1] and main hook [h3]; both return. *)
Definition reg_all_return : @AsyncHookRegistry (list string) Z Z string :=
  register "e" h3 (register_pre "e" h1 init).

(** "e" has pre hook [h1], main hooks [h2; h3] and post hook [h2]; [h2]
    raises. *)
Definition reg_groups_fail : @AsyncHookRegistry (list string) Z Z string :=
  register_post "e" h2
    (register "e" h3 (register "e" h2 (register_pre "e" h1 init))).

(** A setup hook that returns the dictionary [{key: v}]. *)
Definition provides (key : string) (v : Z) : @SetupHook (list string) Z string :=
  λ w, (Returned (IsDict {[ key := v ]}), w ++ [key]).

(** A scope that already holds "old" and has two setup hooks, both of which
    set "db". *)
Definition scope_db : @AsyncHookContext (list string) Z string :=
  with_resources {[ "old" := 0%Z ]}
    (setup (provides "db" 2) (setup (provides "db" 1) (new_context "scope"))).

Definition outside_scope : @ScopeState (list string) Z string :=
  {| ctx := scope_db; outside := [] |}.

(** A body that reads "db". *)
Definition read_db : M (@ScopeState (list string) Z string) string (option Z) :=
  λ s, (Returned (get_resource "db" (ctx s)), s).

End AsyncHooks.


(** ** agent_orchestration.py *)

Module AgentOrchestration.

Inductive AgentRole : Set := PLANNER | EXECUTOR | REVIEWER | COORDINATOR.

Section Orchestrator.
Context {W Any Exn : Type}.

(** [ValueError(msg)] *)
Variable ValueError : string → Exn.

Local Unset Elimination Schemes.
Inductive AgentMessage : Type := Message {
  role : AgentRole;
  content : string;
  metadata : gmap string Any;
  previous_messages : list AgentMessage
}.
Local Set Elimination Schemes.

(** An agent with its three hook lists and its [_process] method, which
    subclasses supply.  Hooks and [_process] act on the world [W]; whether a
    hook is a coroutine function or a plain one, [execute] runs it to its
    end on the same arguments. *)
Record AgentHook : Type := {
  agent_id : string;
  agent_role : AgentRole;
  _pre_hooks : list (AgentMessage → M W Exn unit);
  _post_hooks : list (AgentMessage → AgentMessage → M W Exn unit);
  _error_hooks : list (AgentMessage → Exn → M W Exn unit);
  _process : AgentMessage → M W Exn AgentMessage
}.

(** [await agent.execute(message)] *)
Definition execute (self : AgentHook) (message : AgentMessage) : M W Exn AgentMessage :=
  let* _ := for_each (_pre_hooks self) (λ hook, hook message) in
  try_except
    (let* result := _process self message in
     let* _ := for_each (_post_hooks self) (λ hook, hook message result) in
     ret result)
    (λ e, let* _ := for_each (_error_hooks self) (λ hook, hook message e) in
          raise e).

(** [SimpleAgent(agent_id, role, processor)] *)
Definition SimpleAgent (agent_id : string) (role : AgentRole)
    (processor : string → M W Exn string) : AgentHook :=
  {| agent_id := agent_id; agent_role := role;
     _pre_hooks := []; _post_hooks := []; _error_hooks := [];
     _process := λ message,
       let* content := processor (content message) in
       ret (Message role content (metadata message)
              (previous_messages message ++ [message])) |}.

Record AgentOrchestrator : Type := {
  _agents : gmap string AgentHook;
  _workflows : gmap string (list string);
  _global_hooks : list (string → AgentMessage → M W Exn unit)
}.

(** [AgentOrchestrator()] *)
Definition new_orchestrator : AgentOrchestrator :=
  {| _agents := ∅; _workflows := ∅; _global_hooks := [] |}.

Definition register_agent (agent : AgentHook) (self : AgentOrchestrator) :=
  {| _agents := <[agent_id agent := agent]> (_agents self);
     _workflows := _workflows self; _global_hooks := _global_hooks self |}.

Definition register_workflow (name : string) (agent_sequence : list string)
    (self : AgentOrchestrator) :=
  {| _agents := _agents self;
     _workflows := <[name := agent_sequence]> (_workflows self);
     _global_hooks := _global_hooks self |}.

Definition register_global_hook (hook : string → AgentMessage → M W Exn unit)
    (self : AgentOrchestrator) :=
  {| _agents := _agents self; _workflows := _workflows self;
     _global_hooks := _global_hooks self ++ [hook] |}.

(** One run of [agent.execute] as the orchestrator started it (ghost). *)
Record Execution : Type := {
  ran : AgentHook;
  input : AgentMessage;
  ended : outcome Exn AgentMessage
}.

(** The state a workflow runs in: the world, and (ghost) the executions of
    agents so far. *)
Record State : Type := {
  world : W;
  executed : list Execution
}.

(** Something that acts on the world only. *)
Definition on_world {A} (c : M W Exn A) : M State Exn A :=
  λ s, let '(o, w) := c (world s) in (o, {| world := w; executed := executed s |}).

(** The coroutine [agent.execute(message)]. *)
Definition execution (agent : AgentHook) (message : AgentMessage)
    : M State Exn AgentMessage :=
  λ s, let '(o, w) := execute agent message (world s) in
       (o, {| world := w;
              executed := executed s
                          ++ [{| ran := agent; input := message; ended := o |}] |}).

(** The loop under [for hook in self._global_hooks]. *)
Definition run_global_hooks (self : AgentOrchestrator) (workflow_name : string)
    (current_message : AgentMessage) : M State Exn unit :=
  for_each (_global_hooks self)
    (λ hook, on_world (hook workflow_name current_message)).

(** The sequential loop over [agent_sequence]. *)
Fixpoint run_sequence (self : AgentOrchestrator) (agent_sequence : list string)
    (messages : list AgentMessage) (current_message : AgentMessage)
    : M State Exn (list AgentMessage) :=
  match agent_sequence with
  | [] => ret messages
  | agent_id :: rest =>
      match _agents self !! agent_id with
      | Some agent =>
          let* result := execution agent current_message in
          run_sequence self rest (messages ++ [result]) result
      | None => run_sequence self rest messages current_message
      end
  end.

(** [[r for r in results if isinstance(r, AgentMessage)]] *)
Definition agent_messages (results : list (@slot Exn AgentMessage))
    : list AgentMessage :=
  omap (λ r, match r with Value m => Some m | ExcObj _ => None end) results.

(** [await orchestrator.execute_workflow(workflow_name, initial_message, parallel)] *)
Definition execute_workflow (self : AgentOrchestrator) (workflow_name : string)
    (initial_message : AgentMessage) (parallel : bool)
    : M State Exn (list AgentMessage) :=
  match _workflows self !! workflow_name with
  | None => raise (ValueError ("Workflow " +:+ workflow_name +:+ " not found"))
  | Some agent_sequence =>
      let messages := [initial_message] in
      let current_message := initial_message in
      let* _ := run_global_hooks self workflow_name current_message in
      if parallel then
        let tasks :=
          omap (λ agent_id,
                  (λ agent, execution agent current_message)
                  <$> _agents self !! agent_id)
               agent_sequence in
        let* results := gather tasks in
        ret (messages ++ agent_messages results)
      else
        run_sequence self agent_sequence messages current_message
  end.

(** The agents a workflow's ids resolve to, in sequence order; ids that are
    not registered resolve to nothing. *)
Definition resolved (self : AgentOrchestrator) (agent_sequence : list string)
    : list AgentHook :=
  omap (λ agent_id, _agents self !! agent_id) agent_sequence.

(** The sequential mode in words. *)
Inductive chains (self : AgentOrchestrator) :
    list string → list AgentMessage → AgentMessage → State →
    outcome Exn (list AgentMessage) * State → Prop :=
| chain_done messages current s :
    chains self [] messages current s (Returned messages, s)
| chain_skip agent_id rest messages current s res :
    _agents self !! agent_id = None →
    chains self rest messages current s res →
    chains self (agent_id :: rest) messages current s res
| chain_step agent_id agent rest messages current s result s' res :
    _agents self !! agent_id = Some agent →
    execution agent current s = (Returned result, s') →
    chains self rest (messages ++ [result]) result s' res →
    chains self (agent_id :: rest) messages current s res
| chain_fail agent_id agent rest messages current s e s' :
    _agents self !! agent_id = Some agent →
    execution agent current s = (Raised e, s') →
    chains self (agent_id :: rest) messages current s (Raised e, s').

End Orchestrator.

(** *** The workflow [A, B, C] in which B always raises *)

Section Scenarios.
Definition says (tag : string) : string → M (list string) string string :=
  λ c w, (Returned (tag +:+ "(" +:+ c +:+ ")"), w ++ [tag]).

Definition fails (tag : string) : string → M (list string) string string :=
  λ c w, (Raised (tag +:+ " failed"), w ++ [tag]).

Definition agent_A : @AgentHook (list string) string string := SimpleAgent "A" PLANNER (says "A").
Definition agent_B : @AgentHook (list string) string string := SimpleAgent "B" EXECUTOR (fails "B").
Definition agent_C : @AgentHook (list string) string string := SimpleAgent "C" REVIEWER (says "C").

Definition orchestrator_abc : AgentOrchestrator :=
  register_workflow "abc" ["A"; "B"; "C"]
    (register_agent agent_C (register_agent agent_B (register_agent agent_A
       new_orchestrator))).

Definition initial_message : @AgentMessage string := Message COORDINATOR "x" ∅ [].

Definition idle : @State (list string) string string := {| world := []; executed := [] |}.

Definition value_error (msg : string) : string := "ValueError: " +:+ msg.

End Scenarios.

(** *** Hook registration and message history *)

Section History.
Context {W Any Exn : Type}.

Local Abbreviation AgentMessage := (@AgentMessage Any).
Local Abbreviation AgentHook := (@AgentHook W Any Exn).

(** [agent.before_execution(hook)], [agent.after_execution(hook)],
    [agent.on_error(hook)] *)
Definition before_execution (hook : AgentMessage → M W Exn unit) (self : AgentHook)
    : AgentHook :=
  {| agent_id := agent_id self; agent_role := agent_role self;
     _pre_hooks := _pre_hooks self ++ [hook]; _post_hooks := _post_hooks self;
     _error_hooks := _error_hooks self; _process := _process self |}.

Definition after_execution (hook : AgentMessage → AgentMessage → M W Exn unit)
    (self : AgentHook) : AgentHook :=
  {| agent_id := agent_id self; agent_role := agent_role self;
     _pre_hooks := _pre_hooks self; _post_hooks := _post_hooks self ++ [hook];
     _error_hooks := _error_hooks self; _process := _process self |}.

Definition on_error (hook : AgentMessage → Exn → M W Exn unit) (self : AgentHook)
    : AgentHook :=
  {| agent_id := agent_id self; agent_role := agent_role self;
     _pre_hooks := _pre_hooks self; _post_hooks := _post_hooks self;
     _error_hooks := _error_hooks self ++ [hook]; _process := _process self |}.

(** [SimpleAgent._process] for a role and a processor. *)
Definition simple_process (role : AgentRole) (processor : string → M W Exn string)
    (message : AgentMessage) : M W Exn AgentMessage :=
  let* content := processor (content message) in
  ret (Message role content (metadata message)
         (previous_messages message ++ [message])).

(** An agent whose [_process] is that of [SimpleAgent], whatever hooks it
    carries. *)
Definition is_simple (agent : AgentHook) : Prop :=
  ∃ processor, _process agent = simple_process (agent_role agent) processor.

(** [m] was made from [prev] by a [SimpleAgent]: the history of [prev]
    with [prev] appended, and the same metadata. *)
Definition made_from (prev m : AgentMessage) : Prop :=
  previous_messages m = previous_messages prev ++ [prev]
  ∧ metadata m = metadata prev.

(** Each message of the list was made from the one before it, the first
    from [prev]. *)
Fixpoint chain_from (prev : AgentMessage) (ms : list AgentMessage) : Prop :=
  match ms with
  | [] => True
  | m :: rest => made_from prev m ∧ chain_from m rest
  end.

End History.

(** A global hook that raises, and the orchestrator of the scenario with it. *)
Definition veto : string → @AgentMessage string → M (list string) string unit :=
  λ name m w, (Raised ("veto " +:+ name), w ++ ["veto"]).

Definition orchestrator_veto : AgentOrchestrator :=
  register_global_hook veto orchestrator_abc.

(** A and C only. *)
Definition orchestrator_ac : AgentOrchestrator :=
  register_workflow "ac" ["A"; "missing"; "C"]
    (register_agent agent_C (register_agent agent_A new_orchestrator)).

(** Agent A with a post hook that raises and an error hook that notes what
    it was given. *)
Definition agent_A_watched : @AgentHook (list string) string string :=
  on_error (λ m e w, (Returned (), w ++ ["error hook: " +:+ e]))
    (after_execution (λ m r w, (Raised "post failed", w ++ ["post"])) agent_A).

(** A workflow none of whose ids is registered. *)
Definition orchestrator_ghosts : AgentOrchestrator :=
  register_workflow "ghosts" ["x"; "y"] (register_agent agent_A new_orchestrator).

End AgentOrchestration.


(** ** decorator_hooks.py: [retry_hook] *)

Module RetryHook.

(** The levels of the [logging] calls made. *)
Inductive Level : Set := DEBUG | INFO | WARNING | ERROR.

Section Retry.
Context {W Args Val Exn : Type}.

(** [TypeError(msg)], raised by [raise None], and [ValueError(msg)], raised
    by [time.sleep] on a negative number of seconds. *)
Variables (TypeError ValueError : string → Exn).

(** The state a wrapped call runs in: the world the function acts on, the
    arguments of the [time.sleep] calls, the lines logged, and (ghost) how
    each call of the wrapped function ended. *)
Record State : Type := {
  world : W;
  slept : list Q;
  logged : list (Level * string);
  tried : list (outcome Exn Val)
}.

(** [func] on [args] *)
Definition call_func (func : Args → W → outcome Exn Val * W) (args : Args)
    : M State Exn Val :=
  λ s, let '(o, w) := func args (world s) in
       (o, {| world := w; slept := slept s; logged := logged s;
              tried := tried s ++ [o] |}).

(** [time.sleep(secs)] *)
Definition time_sleep (secs : Q) : M State Exn unit :=
  λ s, if Qle_bool 0 secs
       then (Returned (),
             {| world := world s; slept := slept s ++ [secs];
                logged := logged s; tried := tried s |})
       else (Raised (ValueError "sleep length must be non-negative"), s).

(** [logger.warning(msg)], [logger.error(msg)] *)
Definition log (line : Level * string) : M State Exn unit :=
  λ s, (Returned (),
        {| world := world s; slept := slept s;
           logged := logged s ++ [line]; tried := tried s |}).

Definition warning_line (attempt : Z) : Level * string :=
  (WARNING, "Attempt " +:+ pretty (attempt + 1)%Z +:+ " failed, retrying...").

Definition error_line (max_attempts : Z) : Level * string :=
  (ERROR, "All " +:+ pretty max_attempts +:+ " attempts failed").

(** The loop [for attempt in range(max_attempts)] of the wrapper, over the
    attempts still to make, and the [raise last_exception] after it. *)
Fixpoint retry_loop (max_attempts : Z) (delay : Q)
    (func : Args → W → outcome Exn Val * W) (args : Args)
    (attempts : list Z) (last_exception : option Exn) : M State Exn Val :=
  match attempts with
  | [] =>
      match last_exception with
      | Some e => raise e
      | None => raise (TypeError "exceptions must derive from BaseException")
      end
  | attempt :: rest =>
      λ s, match call_func func args s with
           | (Returned result, s') => (Returned result, s')
           | (Raised e, s') =>
               (let* _ :=
                  (if (attempt <? max_attempts - 1)%Z
                   then let* _ := time_sleep delay in
                        log (warning_line attempt)
                   else log (error_line max_attempts)) in
                retry_loop max_attempts delay func args rest (Some e)) s'
           end
  end.

(** [retry_hook(max_attempts, delay)(func)], called on [args]. *)
Definition retry_hook (max_attempts : Z) (delay : Q)
    (func : Args → W → outcome Exn Val * W) (args : Args) : M State Exn Val :=
  retry_loop max_attempts delay func args (seqZ 0 max_attempts) None.

End Retry.

(** A function on a counter that fails while the counter is below
    [failures] and returns the counter afterwards. *)
Definition flaky (failures : nat) : Z → nat → outcome string Z * nat :=
  λ x w, if decide (w < failures)
         then (Raised ("failure " +:+ pretty w), S w)
         else (Returned (x + Z.of_nat w)%Z, S w).

Definition fresh : @State nat Z string :=
  {| world := 0; slept := []; logged := []; tried := [] |}.

End RetryHook.


(** ** decorator_hooks.py: [cache_hook] *)

Module CacheHook.

Section Cache.
Context {W Args Val Exn : Type} `{Countable Key}.

(** [(args, tuple(sorted(kwargs.items())))]: the positional arguments and
    the keyword arguments in sorted order. *)
Variable key_of : Args → Key.

(** [time.time()], read off the world. *)
Variable time_time : W → Q.

(** The state a wrapped call runs in: the world, the dictionary [cache]
    made by the [cache_hook(ttl)] call, shared by every function that
    decorator wraps, and the debug lines logged. *)
Record State : Type := {
  world : W;
  cache : gmap Key (Val * Q);
  logged : list string
}.

(** [ttl is None or (now - cached_time) < ttl] *)
Definition still_valid (ttl : option Q) (now cached_time : Q) : bool :=
  match ttl with
  | None => true
  | Some t => negb (Qle_bool t (now - cached_time))
  end.

(** [func] on [args] *)
Definition call_func (func : @DecoratorHooks.PyFunc W Args Val Exn) (args : Args)
    : M State Exn Val :=
  λ s, let '(o, w) := DecoratorHooks.call func args (world s) in
       (o, {| world := w; cache := cache s; logged := logged s |}).

(** [cache[key] = (result, now)] *)
Definition store (key : Key) (entry : Val * Q) : M State Exn unit :=
  λ s, (Returned (),
        {| world := world s; cache := <[key := entry]> (cache s);
           logged := logged s |}).

(** [logger.debug(msg)] *)
Definition logger_debug (msg : string) : M State Exn unit :=
  λ s, (Returned (),
        {| world := world s; cache := cache s; logged := logged s ++ [msg] |}).

Definition hit_line (func : @DecoratorHooks.PyFunc W Args Val Exn) : string :=
  "Cache hit for " +:+ DecoratorHooks.__name__ func.

(** [cache_hook(ttl)(func)], called on [args]. *)
Definition cache_hook (ttl : option Q)
    (func : @DecoratorHooks.PyFunc W Args Val Exn) (args : Args) : M State Exn Val :=
  λ s,
    let key := key_of args in
    let now := time_time (world s) in
    let compute :=
      let* result := call_func func args in
      let* _ := store key (result, now) in
      ret result in
    match cache s !! key with
    | Some (result, cached_time) =>
        if still_valid ttl now cached_time
        then (let* _ := logger_debug (hit_line func) in ret result) s
        else compute s
    | None => compute s
    end.

(** What can happen between two calls through the decorator: further calls
    through it, with any function it wraps and any arguments, however they
    end, and steps of the rest of the program, which change the world and
    the log and cannot reach [cache], a local variable of [cache_hook]. *)
Inductive later (ttl : option Q) : State → State → Prop :=
| later_now s : later ttl s s
| later_call s s1 (func : @DecoratorHooks.PyFunc W Args Val Exn) (args : Args) :
    later ttl s s1 →
    later ttl s (cache_hook ttl func args s1).2
| later_elsewhere s s1 s2 :
    later ttl s s1 →
    cache s2 = cache s1 →
    later ttl s s2.

End Cache.

(** A function that counts its calls in the world and returns the count
    added to its argument; the clock shows the count. *)
Definition counting : @DecoratorHooks.PyFunc nat Z Z string :=
  {| DecoratorHooks.__name__ := "counting";
     DecoratorHooks.call := λ x w, (Returned (x + Z.of_nat w)%Z, S w) |}.

(** A function that always raises. *)
Definition broken : @DecoratorHooks.PyFunc nat Z Z string :=
  {| DecoratorHooks.__name__ := "broken";
     DecoratorHooks.call := λ x w, (Raised "broken", S w) |}.

Definition clock (w : nat) : Q := inject_Z (Z.of_nat w).

Definition cold : @State nat Z Z _ _ := {| world := 0; cache := ∅; logged := [] |}.

End CacheHook.


(** ** decorator_hooks.py: [compose_hooks] and [ComposableDecorator] *)

Module Composition.

Section Compose.
Context {S E F : Type}.

(** [for dec in decs: func = dec(func)]; applying a decorator may itself
    act on the state or raise. *)
Fixpoint apply_each (decs : list (F → M S E F)) (func : F) : M S E F :=
  match decs with
  | [] => ret func
  | dec :: rest => let* func := dec func in apply_each rest func
  end.

(** [compose_hooks] of [decorators], applied to [func]. *)
Definition compose_hooks (decorators : list (F → M S E F)) (func : F) : M S E F :=
  apply_each (rev decorators) func.

(** A decorator that only builds the wrapped function. *)
Definition plain (dec : F → F) : F → M S E F := λ func, ret (dec func).

End Compose.

Section Composable.
Context {W Args Val Exn : Type}.

(** A callable on [(args, kwargs)], here one value of [Args]. *)
Definition Callable : Type := Args → M W Exn Val.

Record ComposableDecorator : Type := {
  func : option Callable;
  _conditions : list (Args → M W Exn bool);
  _transformations : list (Args → M W Exn Args)
}.

(** [ComposableDecorator(func)] *)
Definition new_decorator (func : option Callable) : ComposableDecorator :=
  {| func := func; _conditions := []; _transformations := [] |}.

Definition when (condition : Args → M W Exn bool) (self : ComposableDecorator)
    : ComposableDecorator :=
  {| func := func self; _conditions := _conditions self ++ [condition];
     _transformations := _transformations self |}.

Definition transform (transformer : Args → M W Exn Args) (self : ComposableDecorator)
    : ComposableDecorator :=
  {| func := func self; _conditions := _conditions self;
     _transformations := _transformations self ++ [transformer] |}.

(** The loop over [self._conditions] in [wrapper]: a condition that is not
    true returns [func] of the arguments at once; [otherwise] is the rest of
    the wrapper. *)
Fixpoint check_conditions (conditions : list (Args → M W Exn bool))
    (fn : Callable) (args : Args) (otherwise : M W Exn Val) : M W Exn Val :=
  match conditions with
  | [] => otherwise
  | condition :: rest =>
      let* holds := condition args in
      if holds then check_conditions rest fn args otherwise else fn args
  end.

(** The loop over [self._transformations]. *)
Fixpoint apply_transformations (transformations : list (Args → M W Exn Args))
    (transformed : Args) : M W Exn Args :=
  match transformations with
  | [] => ret transformed
  | transformer :: rest =>
      let* transformed := transformer transformed in
      apply_transformations rest transformed
  end.

(** The [wrapper] that [self._wrap(func)] returns, called on [args]; it
    reads the two lists of [self] when it is called. *)
Definition wrapper (self : ComposableDecorator) (fn : Callable) (args : Args)
    : M W Exn Val :=
  check_conditions (_conditions self) fn args
    (let* transformed := apply_transformations (_transformations self) args in
     fn transformed).

(** Conditions and transformations that compute without acting on the
    world. *)
Definition pure_condition (c : Args → bool) : Args → M W Exn bool := λ a, ret (c a).
Definition pure_transformer (t : Args → Args) : Args → M W Exn Args := λ a, ret (t a).

(** [self(func)]: [self.func] is set when it was [None]; the wrapper is
    the same in both branches. *)
Definition __call__ (self : ComposableDecorator) (fn : Callable)
    : ComposableDecorator * Callable :=
  match func self with
  | None =>
      ({| func := Some fn; _conditions := _conditions self;
          _transformations := _transformations self |},
       wrapper self fn)
  | Some _ => (self, wrapper self fn)
  end.

End Composable.

End Composition.


(** ** async_hooks.py: [AsyncRateLimiter] *)

Module RateLimiter.

(** [a < b] on the times of the clock, which are rationals here. *)
Definition Qlt_bool (a b : Q) : bool := negb (Qle_bool b a).

Section Limiter.
Context {W Args Val Exn : Type}.

(** [time.time()], read off the world; what awaiting [asyncio.sleep(secs)]
    does to the world; [IndexError(msg)]. *)
Variables (time_time : W → Q) (asyncio_sleep : Q → W → W)
  (IndexError : string → Exn).

Record AsyncRateLimiter : Type := {
  max_calls : Z;
  period : Q;
  calls : list Q
}.

(** [AsyncRateLimiter(max_calls, period)] *)
Definition new_limiter (max_calls : Z) (period : Q) : AsyncRateLimiter :=
  {| max_calls := max_calls; period := period; calls := [] |}.

(** The limiter object, the world, and (ghost) the arguments of the
    [asyncio.sleep] calls awaited. *)
Record State : Type := {
  limiter : AsyncRateLimiter;
  world : W;
  slept : list Q
}.

Definition set_calls (cs : list Q) (s : State) : State :=
  {| limiter := {| max_calls := max_calls (limiter s);
                   period := period (limiter s); calls := cs |};
     world := world s; slept := slept s |}.

(** The block under [async with self._lock] in [wrapper]; the wrappers of
    one limiter run it one at a time. *)
Definition under_lock : M State Exn unit :=
  λ s,
    let self := limiter s in
    let now := time_time (world s) in
    let recent :=
      List.filter (λ call_time, Qlt_bool (now - call_time) (period self))
        (calls self) in
    if (max_calls self <=? Z.of_nat (length recent))%Z then
      match recent with
      | [] => (Raised (IndexError "list index out of range"), set_calls recent s)
      | oldest :: _ =>
          let sleep_time := (period self - (now - oldest))%Q in
          if Qlt_bool 0 sleep_time then
            let w := asyncio_sleep sleep_time (world s) in
            let now := time_time w in
            (Returned (),
             {| limiter := {| max_calls := max_calls self; period := period self;
                              calls := [] ++ [now] |};
                world := w; slept := slept s ++ [sleep_time] |})
          else (Returned (), set_calls (recent ++ [now]) s)
      end
    else (Returned (), set_calls (recent ++ [now]) s).

(** [await func] on [args] *)
Definition call_func (func : Args → W → outcome Exn Val * W) (args : Args)
    : M State Exn Val :=
  λ s, let '(o, w) := func args (world s) in
       (o, {| limiter := limiter s; world := w; slept := slept s |}).

(** The [wrapper] the limiter makes of [func], called on [args]. *)
Definition wrapper (func : Args → W → outcome Exn Val * W) (args : Args)
    : M State Exn Val :=
  let* _ := under_lock in
  call_func func args.

End Limiter.

(** A world that is a clock; sleeping moves it on by the seconds slept. *)
Definition ticks (w : Q) : Q := w.
Definition sleep_through (secs : Q) (w : Q) : Q := (w + secs)%Q.
Definition index_error (msg : string) : string := "IndexError: " +:+ msg.
Definition echo : Z → Q → outcome string Z * Q := λ x w, (Returned x, w).

End RateLimiter.


(** * Properties *)

(** ** decorator_hooks.py *)

Module DecoratorHooksFacts.
Import DecoratorHooks.

(** *** Facts about the sort *)

Section SortFacts.
Context {A : Type} (key : A → Z).

Lemma insert_desc_filter (k : Z) (x : A) (l : list A) :
  filter (λ a, key a = k) (insert_desc key x l)
  = filter (λ a, key a = k) (x :: l).
Proof.
  induction l as [|y l IH]; simpl; [done|].
  destruct (Z.leb_spec (key y) (key x)) as [Hle|Hlt]; [done|].
  rewrite filter_cons, IH, !filter_cons.
  destruct (decide (key y = k)), (decide (key x = k)); try done; lia.
Qed.

Lemma sort_desc_filter (k : Z) (l : list A) :
  filter (λ a, key a = k) (sort_desc key l) = filter (λ a, key a = k) l.
Proof.
  induction l as [|x l IH]; simpl; [done|].
  by rewrite insert_desc_filter, !filter_cons, IH.
Qed.

Lemma insert_desc_elem (x z : A) (l : list A) :
  z ∈ insert_desc key x l → z = x ∨ z ∈ l.
Proof.
  induction l as [|y l IH]; simpl.
  - rewrite list_elem_of_singleton; auto.
  - destruct (key y <=? key x)%Z.
    + rewrite elem_of_cons; auto.
    + rewrite !elem_of_cons. intros [->|H]; [auto|]. destruct (IH H); auto.
Qed.

Lemma insert_desc_sorted (x : A) (l : list A) :
  StronglySorted (desc key) l → StronglySorted (desc key) (insert_desc key x l).
Proof.
  induction 1 as [|y l Hl IH Hy]; simpl.
  - repeat constructor.
  - destruct (Z.leb_spec (key y) (key x)) as [Hle|Hlt].
    + constructor; [by constructor|].
      constructor; [done|].
      eapply Forall_impl; [exact Hy|]. unfold desc. intros; lia.
    + constructor; [done|].
      apply Forall_forall. intros z Hz.
      destruct (insert_desc_elem _ _ _ Hz) as [->|Hin].
      * unfold desc; lia.
      * by eapply Forall_forall in Hy.
Qed.

Lemma sort_desc_sorted (l : list A) : StronglySorted (desc key) (sort_desc key l).
Proof.
  induction l; simpl; [constructor | by apply insert_desc_sorted].
Qed.

Lemma StronglySorted_filter (P : A → Prop) `{!∀ a, Decision (P a)} (l : list A) :
  StronglySorted (desc key) l → StronglySorted (desc key) (filter P l).
Proof.
  induction 1 as [|y l Hl IH Hy]; [constructor|].
  rewrite filter_cons. destruct (decide (P y)); [|done].
  constructor; [done|].
  apply Forall_forall. intros z Hz. apply list_elem_of_filter in Hz as [_ Hz].
  by eapply Forall_forall in Hy.
Qed.
End SortFacts.

(** *** Facts about [register] and [trigger] *)

Section RegistryFacts.
Context {W Args Val Exn : Type} (str : Exn → string).

Local Abbreviation HookMetadata := (@HookMetadata W Args Val Exn).
Local Abbreviation HookRegistry := (@HookRegistry W Args Val Exn).
Local Abbreviation Registration := (@Registration W Args Val Exn).
Local Abbreviation State := (@State W Args Val Exn).

Lemma value_inj (p q : HookPriority) : value p = value q → p = q.
Proof. by destruct p, q. Qed.

Lemma filter_priority_value (p : HookPriority) (l : list HookMetadata) :
  filter (λ h, priority h = p) l
  = filter (λ h, value (priority h) = value p) l.
Proof.
  apply list_filter_iff. intros h. split; [by intros ->|apply value_inj].
Qed.

Lemma sort_hooks_filter (p : HookPriority) (l : list HookMetadata) :
  filter (λ h, priority h = p) (sort_hooks l) = filter (λ h, priority h = p) l.
Proof.
  rewrite !filter_priority_value. apply (sort_desc_filter (λ h, value (priority h))).
Qed.

Lemma sort_hooks_sorted (l : list HookMetadata) :
  StronglySorted by_value (sort_hooks l).
Proof. apply (sort_desc_sorted (λ h, value (priority h))). Qed.

Lemma hooks_for_init (event : option string) : hooks_for event (init : HookRegistry) = [].
Proof. destruct event; simpl; [by rewrite lookup_empty | done]. Qed.

(** A registration re-sorts the list of its own event and leaves every
    other list alone. *)
Lemma hooks_for_register (event : option string) (self : HookRegistry)
    (r : Registration) :
  hooks_for event (apply_registration self r)
  = if decide (reg_event r = event)
    then sort_hooks (hooks_for event self ++ [metadata_of r])
    else hooks_for event self.
Proof.
  unfold apply_registration, register, metadata_of.
  destruct r as [[ev'|] p n en f]; destruct event as [ev|]; simpl;
    repeat case_decide; simplify_eq; try done.
  - by rewrite lookup_insert_eq.
  - rewrite lookup_insert_ne; [done | congruence].
Qed.

(** After any sequence of registrations every list is sorted by
    non-increasing priority and lists the records of each priority in
    registration order. *)
Lemma register_all_sorted (event : option string) (rs : list Registration) :
  StronglySorted by_value (hooks_for event (register_all rs)).
Proof.
  induction rs as [|r rs IH] using rev_ind.
  - rewrite hooks_for_init. constructor.
  - unfold register_all in *. rewrite foldl_snoc, hooks_for_register.
    case_decide; [apply sort_hooks_sorted | done].
Qed.

Lemma register_all_stable (event : option string) (p : HookPriority)
    (rs : list Registration) :
  filter (λ h, priority h = p) (hooks_for event (register_all rs))
  = filter (λ h, priority h = p) (registered_for event rs).
Proof.
  induction rs as [|r rs IH] using rev_ind.
  - by rewrite hooks_for_init.
  - unfold register_all, registered_for in *.
    rewrite foldl_snoc, hooks_for_register, filter_app, fmap_app, filter_app.
    rewrite <- IH, filter_cons, filter_nil.
    case_decide; simpl.
    + by rewrite sort_hooks_filter, filter_app.
    + by rewrite app_nil_r.
Qed.

Lemma filter_filter_comm {A} (P Q : A → Prop)
    `{!∀ a, Decision (P a)} `{!∀ a, Decision (Q a)} (l : list A) :
  filter P (filter Q l) = filter Q (filter P l).
Proof.
  induction l as [|x l IH]; [done|].
  rewrite !filter_cons.
  destruct (decide (P x)), (decide (Q x)); rewrite ?filter_cons;
    repeat case_decide; try done; by rewrite IH.
Qed.

Lemma register_all_fires (event : option string) (rs : list Registration) :
  fires_by_priority (registered_for event rs)
    (filter (λ h, enabled h = true) (hooks_for event (register_all rs))).
Proof.
  split.
  - apply (StronglySorted_filter (λ h, value (priority h))), register_all_sorted.
  - intros p. rewrite filter_filter_comm, register_all_stable.
    apply filter_filter_comm.
Qed.

(** One loop of [trigger]: every enabled hook of the list is called, in
    list order; values of the calls that returned are appended, a line is
    logged for each call that raised, and the loop itself returns. *)
Lemma run_loop_spec (msg : HookMetadata → Exn → string)
    (hooks : list HookMetadata) (args : Args) (results : list Val) (s : State) :
  ∃ cs w,
    run_loop msg hooks args results s
    = (Returned (results ++ successes cs),
       {| registry := registry s; world := w;
          logged := logged s ++ failures msg cs;
          calls := calls s ++ cs |})
    ∧ cs.*1 = filter (λ h, enabled h = true) hooks.
Proof.
  revert results s. induction hooks as [|h hooks IH]; intros results s.
  - exists [], (world s). destruct s; simpl. by rewrite !app_nil_r.
  - simpl. rewrite filter_cons. destruct (enabled h) eqn:Hen; simpl.
    + unfold bind, try_except, call_hook, logger_error, ret.
      destruct (call (func h) args (world s)) as [[v|e] w1] eqn:Hcall; simpl.
      * edestruct IH as (cs & w & -> & Hcs).
        exists ((h, Returned v) :: cs), w.
        split; [|by rewrite fmap_cons, Hcs].
        unfold successes, failures. simpl. by rewrite <- !app_assoc.
      * edestruct IH as (cs & w & -> & Hcs).
        exists ((h, Raised e) :: cs), w.
        split; [|by rewrite fmap_cons, Hcs].
        unfold successes, failures. simpl. by rewrite <- !app_assoc.
    + unfold bind, ret.
      edestruct IH as (cs & w & -> & Hcs). by exists cs, w.
Qed.

(** What a [trigger] call does, from any state. *)
Lemma trigger_spec (event : string) (args : Args) (s : State) :
  ∃ cg ce w,
    trigger str event args s
    = (Returned (successes (cg ++ ce)),
       {| registry := registry s; world := w;
          logged := logged s ++ failures (global_msg str) cg
                             ++ failures (event_msg str event) ce;
          calls := calls s ++ cg ++ ce |})
    ∧ cg.*1 = filter (λ h, enabled h = true) (hooks_for None (registry s))
    ∧ ce.*1 = filter (λ h, enabled h = true) (hooks_for (Some event) (registry s)).
Proof.
  unfold trigger, bind.
  destruct (run_loop_spec (global_msg str) (_global_hooks (registry s)) args [] s)
    as (cg & w1 & -> & Hcg). simpl.
  destruct (_hooks (registry s) !! event) as [hooks|] eqn:Hev.
  - edestruct (run_loop_spec (event_msg str event) hooks args) as (ce & w & -> & Hce).
    exists cg, ce, w. simpl. unfold successes, failures in *.
    rewrite omap_app, <- !app_assoc. done.
  - exists cg, [], w1. unfold successes, failures. simpl.
    by rewrite !app_nil_r.
Qed.



(** C1.  For a registry built from [HookRegistry()] by any sequence of
    [register] calls, [trigger] first calls the enabled global hooks and
    then the enabled hooks of the event; each of the two groups is called
    by non-increasing priority, hooks of one priority in the order of
    their registration; the list returned holds the values of the calls
    that returned, in the order of the calls. *)
Theorem trigger_fires_by_priority (rs : list Registration) (event : string)
    (args : Args) (w0 : W) (lines : list string) :
  let s := {| registry := register_all rs; world := w0;
              logged := lines; calls := [] |} in
  ∃ cg ce,
    calls (trigger str event args s).2 = cg ++ ce
    ∧ fires_by_priority (registered_for None rs) cg.*1
    ∧ fires_by_priority (registered_for (Some event) rs) ce.*1
    ∧ (trigger str event args s).1 = Returned (successes (cg ++ ce)).
Proof.
  intros s.
  destruct (trigger_spec event args s) as (cg & ce & w & -> & Hcg & Hce).
  exists cg, ce. simpl. rewrite Hcg, Hce.
  repeat split; try done; apply register_all_fires.
Qed.


(** C9.  A [trigger] call leaves the registry as it found it: the mapping
    from events to hook lists, the global list, the order of each list and
    every record in them. *)
Theorem trigger_preserves_registry (event : string) (args : Args) (s : State) :
  registry (trigger str event args s).2 = registry s.
Proof.
  by destruct (trigger_spec event args s) as (cg & ce & w & -> & _).
Qed.

End RegistryFacts.

(** *** The scenarios of the specification *)

(** [trigger("e", 5)] returns [[a(5), b(5)]]. *)
Example trigger_ab :
  (trigger id "e" 5%Z (start reg_ab)).1 = Returned [6%Z; 10%Z].
Proof. reflexivity. Qed.

(** All three hooks are called, two values are returned and one line is
    logged. *)
Example trigger_123 :
  let '(o, s) := trigger id "e" 0%Z (start reg_123) in
  o = Returned [1%Z; 3%Z] ∧ world s = 3
  ∧ logged s = ["Error in hook h2 for event e: boom"].
Proof. vm_compute. done. Qed.

(** *** Enabling and disabling by name *)

Section ToggleFacts.
Context {W Args Val Exn : Type} (str : Exn → string).

Local Abbreviation HookMetadata := (@HookMetadata W Args Val Exn).
Local Abbreviation HookRegistry := (@HookRegistry W Args Val Exn).
Local Abbreviation Registration := (@Registration W Args Val Exn).
Local Abbreviation State := (@State W Args Val Exn).
Local Abbreviation Op := (@Op W Args Val Exn).

Implicit Types (r : HookRegistry) (n : string) (l : list HookMetadata)
  (event : option string).

Lemma hooks_for_enable event n r :
  hooks_for event (enable_hook n r) = set_enabled n true <$> hooks_for event r.
Proof.
  destruct event as [ev|]; simpl; [|done].
  rewrite lookup_fmap. by destruct (_hooks r !! ev).
Qed.

Lemma hooks_for_disable event n r :
  hooks_for event (disable_hook n r) = set_enabled n false <$> hooks_for event r.
Proof.
  destruct event as [ev|]; simpl; [|done].
  rewrite lookup_fmap. by destruct (_hooks r !! ev).
Qed.

Lemma unflagged_set_enabled n (flag : bool) (h : HookMetadata) :
  unflagged (set_enabled n flag h) = unflagged h.
Proof. unfold set_enabled. by case_decide. Qed.

Lemma set_enabled_sorted n (flag : bool) l :
  StronglySorted by_value l → StronglySorted by_value (set_enabled n flag <$> l).
Proof.
  apply StronglySorted_fmap. intros x y. unfold by_value, set_enabled.
  by repeat case_decide.
Qed.

Lemma unflagged_set_enabled_list n (flag : bool) l :
  unflagged <$> (set_enabled n flag <$> l) = unflagged <$> l.
Proof.
  rewrite <- list_fmap_compose. apply list_fmap_ext. intros _ h _. simpl.
  apply unflagged_set_enabled.
Qed.

Lemma filter_fmap_comm {A B} (f : A → B) (P : B → Prop)
    `{!∀ b, Decision (P b)} (xs : list A) :
  filter P (f <$> xs) = f <$> filter (λ a, P (f a)) xs.
Proof.
  induction xs as [|x xs IH]; [done|].
  rewrite fmap_cons, !filter_cons, IH. by case_decide.
Qed.

Lemma filter_unflagged (p : HookPriority) l :
  filter (λ x, x.1.2 = p) (unflagged <$> l)
  = unflagged <$> filter (λ h, priority h = p) l.
Proof. by rewrite filter_fmap_comm. Qed.

Lemma registrations_snoc (ops : list Op) (op : Op) :
  registrations (ops ++ [op])
  = registrations ops ++ match op with Register reg => [reg] | _ => [] end.
Proof. unfold registrations. rewrite omap_app. by destruct op. Qed.

(** X1.  Whatever sequence of [register], [enable_hook] and [disable_hook]
    calls built the registry, each of its lists is sorted by non-increasing
    priority, and, enabled flags apart, holds for each priority exactly the
    records registered for it, in registration order: enabling and disabling
    never reorder, add or remove a record. *)
Theorem toggles_keep_lists_sorted (ops : list Op) event :
  StronglySorted by_value (hooks_for event (run_ops ops))
  ∧ ∀ p : HookPriority,
      filter (λ x, x.1.2 = p) (unflagged <$> hooks_for event (run_ops ops))
      = filter (λ x, x.1.2 = p)
          (unflagged <$> registered_for event (registrations ops)).
Proof.
  induction ops as [|op ops [IHs IHf]] using rev_ind.
  - unfold run_ops. simpl. rewrite hooks_for_init. split; [constructor|done].
  - unfold run_ops in *. rewrite foldl_snoc, registrations_snoc.
    destruct op as [reg|n|n]; simpl.
    + rewrite hooks_for_register. unfold registered_for in *.
      rewrite filter_app, filter_cons, filter_nil. case_decide; simpl.
      * split; [apply sort_hooks_sorted|]. intros p.
        rewrite filter_unflagged, (sort_hooks_filter p), <- filter_unflagged.
        by rewrite !fmap_app, !filter_app, IHf.
      * by rewrite app_nil_r.
    + rewrite hooks_for_enable, app_nil_r. split.
      * by apply set_enabled_sorted.
      * intros p. by rewrite unflagged_set_enabled_list.
    + rewrite hooks_for_disable, app_nil_r. split.
      * by apply set_enabled_sorted.
      * intros p. by rewrite unflagged_set_enabled_list.
Qed.

Lemma filter_enabled_disabled n l :
  filter (λ h, enabled h = true) (set_enabled n false <$> l)
  = filter (λ h, enabled h = true ∧ name h ≠ n) l.
Proof.
  induction l as [|h l IH]; [done|].
  rewrite fmap_cons, !filter_cons, IH. unfold set_enabled.
  destruct (decide (name h = n)) as [Hn|Hn], (decide (enabled h = true)) as [He|He];
    simpl;
    destruct (decide (enabled h = true ∧ name h ≠ n)) as [[? ?]|Hno];
    try done; destruct Hno; by split.
Qed.

(** X2.  After [disable_hook(name)] a [trigger] calls exactly the hooks that
    were enabled and carry another name, global ones first: no hook of that
    name is called, for any event, and no other hook is lost. *)
Theorem disabled_name_never_fires n (event : string) (args : Args) (s : State) :
  let s' := with_registry (disable_hook n (registry s)) s in
  ∃ cs,
    calls (trigger str event args s').2 = calls s ++ cs
    ∧ (trigger str event args s').1 = Returned (successes cs)
    ∧ cs.*1 = filter (λ h, enabled h = true ∧ name h ≠ n)
                (_global_hooks (registry s)
                 ++ default [] (_hooks (registry s) !! event))
    ∧ Forall (λ h, name h ≠ n) cs.*1.
Proof.
  intros s'.
  destruct (trigger_spec str event args s') as (cg & ce & w & -> & Hcg & Hce).
  exists (cg ++ ce). simpl. split; [done|]. split; [done|].
  assert (Hcs : (cg ++ ce).*1
                = filter (λ h, enabled h = true ∧ name h ≠ n)
                    (_global_hooks (registry s)
                     ++ default [] (_hooks (registry s) !! event))).
  { rewrite fmap_app, filter_app, Hcg, Hce. unfold s'. simpl.
    rewrite lookup_fmap.
    rewrite filter_enabled_disabled. f_equal. destruct (_hooks (registry s) !! event) as [l|]; simpl; [|done].
    apply filter_enabled_disabled. }
  split; [done|]. rewrite Hcs. apply Forall_forall. intros h Hh.
  by apply list_elem_of_filter in Hh as [[_ ?] _].
Qed.

Lemma set_enabled_absent n (flag : bool) l :
  Forall (λ h, name h ≠ n) l → set_enabled n flag <$> l = l.
Proof.
  induction 1 as [|h l Hh _ IH]; [done|].
  rewrite fmap_cons, IH. unfold set_enabled. by rewrite decide_False.
Qed.

(** X3.  [enable_hook] and [disable_hook] on a name that no record carries
    leave the registry exactly as it was. *)
Theorem toggle_unknown_name_is_noop n r :
  (∀ event h, h ∈ hooks_for event r → name h ≠ n) →
  enable_hook n r = r ∧ disable_hook n r = r.
Proof.
  intros Hn.
  assert (Hlist : ∀ (flag : bool) event,
             set_enabled n flag <$> hooks_for event r = hooks_for event r).
  { intros flag event. apply set_enabled_absent, Forall_forall. apply Hn. }
  assert (Hmap : ∀ flag : bool,
             fmap (M := list) (set_enabled n flag) <$> _hooks r = _hooks r).
  { intros flag. apply map_eq. intros ev. rewrite lookup_fmap.
    destruct (_hooks r !! ev) as [l|] eqn:Hev; simpl; [|done].
    f_equal. specialize (Hlist flag (Some ev)). simpl in Hlist.
    by rewrite Hev in Hlist. }
  pose proof (Hlist true None) as Hon. pose proof (Hlist false None) as Hoff.
  simpl in Hon, Hoff.
  unfold enable_hook, disable_hook. rewrite !Hmap, Hon, Hoff. by destruct r.
Qed.

Lemma set_enabled_twice n (flag flag' : bool) (h : HookMetadata) :
  set_enabled n flag (set_enabled n flag' h) = set_enabled n flag h.
Proof. unfold set_enabled. by repeat (case_decide; simpl in *). Qed.

Lemma set_enabled_twice_registry n (flag flag' : bool) r :
  {| _hooks := fmap (M := list) (set_enabled n flag)
               <$> (fmap (M := list) (set_enabled n flag') <$> _hooks r);
     _global_hooks := set_enabled n flag <$> (set_enabled n flag' <$> _global_hooks r) |}
  = {| _hooks := fmap (M := list) (set_enabled n flag) <$> _hooks r;
       _global_hooks := set_enabled n flag <$> _global_hooks r |}.
Proof.
  f_equal.
  - rewrite <- map_fmap_compose. apply map_fmap_ext. intros ev l _. simpl.
    rewrite <- list_fmap_compose. apply list_fmap_ext. intros _ h _.
    apply set_enabled_twice.
  - rewrite <- list_fmap_compose. apply list_fmap_ext. intros _ h _.
    apply set_enabled_twice.
Qed.

Lemma set_enabled_same n (flag : bool) l :
  Forall (λ h, name h = n → enabled h = flag) l → set_enabled n flag <$> l = l.
Proof.
  induction 1 as [|h l Hh _ IH]; [done|].
  rewrite fmap_cons, IH. unfold set_enabled. case_decide; [|done].
  destruct h as [f p nm en]. simpl in *. by rewrite Hh.
Qed.

(** X4.  Of two calls on one name the later decides: [enable_hook] after
    [disable_hook] is [enable_hook] alone, and the other way round; so
    disabling and re-enabling a name gives back the registry itself exactly
    when every record of that name was enabled before. *)
Theorem toggle_last_call_decides n r :
  enable_hook n (disable_hook n r) = enable_hook n r
  ∧ disable_hook n (enable_hook n r) = disable_hook n r
  ∧ ((∀ event h, h ∈ hooks_for event r → name h = n → enabled h = true) →
     enable_hook n (disable_hook n r) = r).
Proof.
  assert (Hed : enable_hook n (disable_hook n r) = enable_hook n r)
    by apply set_enabled_twice_registry.
  split; [done|]. split; [apply set_enabled_twice_registry|].
  intros Hen. rewrite Hed.
  assert (Hlist : ∀ event,
             set_enabled n true <$> hooks_for event r = hooks_for event r).
  { intros event. apply set_enabled_same, Forall_forall. apply Hen. }
  pose proof (Hlist None) as Hglobal. simpl in Hglobal.
  unfold enable_hook. rewrite Hglobal.
  assert (fmap (M := list) (set_enabled n true) <$> _hooks r = _hooks r) as ->.
  { apply map_eq. intros ev. rewrite lookup_fmap.
    destruct (_hooks r !! ev) as [l|] eqn:Hev; simpl; [|done].
    f_equal. specialize (Hlist (Some ev)). simpl in Hlist.
    by rewrite Hev in Hlist. }
  by destruct r.
Qed.

Lemma insert_desc_perm {A} (key : A → Z) (x : A) (xs : list A) :
  insert_desc key x xs ≡ₚ x :: xs.
Proof.
  induction xs as [|y xs IH]; simpl; [done|].
  destruct (key y <=? key x)%Z; [done|]. by rewrite IH, Permutation_swap.
Qed.

Lemma sort_desc_perm {A} (key : A → Z) (xs : list A) : sort_desc key xs ≡ₚ xs.
Proof.
  induction xs as [|x xs IH]; simpl; [done|]. by rewrite insert_desc_perm, IH.
Qed.

(** X5.  A [register] call changes one list only, the global one or that
    of its event, and that list gains the new record and nothing else: no
    record registered earlier is dropped or doubled. *)
Theorem register_adds_one_record (reg : Registration) event r :
  if decide (reg_event reg = event)
  then hooks_for event (apply_registration r reg) ≡ₚ metadata_of reg :: hooks_for event r
  else hooks_for event (apply_registration r reg) = hooks_for event r.
Proof.
  rewrite hooks_for_register. case_decide; [|done].
  unfold sort_hooks. rewrite sort_desc_perm. by rewrite Permutation_app_comm.
Qed.

Lemma run_loop_disabled (msg : HookMetadata → Exn → string) l (args : Args)
    (results : list Val) (s : State) :
  Forall (λ h, enabled h = false) l →
  run_loop msg l args results s = (Returned results, s).
Proof.
  induction 1 as [|h l Hh _ IH]; simpl; [done|].
  rewrite Hh. unfold bind, ret. apply IH.
Qed.

(** X6.  When every hook of the global list and of the event's list is
    disabled, [trigger] returns the empty list and nothing else happens: no
    function is called, nothing is logged, the state is the one before. *)
Theorem trigger_all_disabled (event : string) (args : Args) (s : State) :
  Forall (λ h, enabled h = false)
    (_global_hooks (registry s) ++ default [] (_hooks (registry s) !! event)) →
  trigger str event args s = (Returned [], s).
Proof.
  rewrite Forall_app. intros [Hg He]. unfold trigger, bind.
  rewrite run_loop_disabled by done.
  destruct (_hooks (registry s) !! event) as [l|]; simpl in *; [|done].
  by apply run_loop_disabled.
Qed.

End ToggleFacts.

(** [reg_one] holds one record, on event "e". *)
Lemma reg_one_hooks (event : option string) (h : HookMetadata) :
  h ∈ hooks_for event reg_one →
  h = {| func := returning "h1" (λ x, x + 1)%Z; priority := NORMAL;
         name := "h1"; enabled := true |}.
Proof.
  destruct event as [ev|]; simpl.
  - unfold reg_one, register. simpl. rewrite lookup_insert.
    case_decide; simpl; [|by intros ?%elem_of_nil].
    by intros ->%list_elem_of_singleton.
  - by intros ?%elem_of_nil.
Qed.

Lemma toggle_unknown_name_is_noop_witness :
  enable_hook "other" reg_one = reg_one ∧ disable_hook "other" reg_one = reg_one.
Proof.
  apply toggle_unknown_name_is_noop. intros event h Hh.
  apply reg_one_hooks in Hh as ->. done.
Defined.

Lemma toggle_last_call_decides_witness :
  enable_hook "h1" (disable_hook "h1" reg_one) = reg_one.
Proof.
  apply (proj2 (proj2 (toggle_last_call_decides "h1" reg_one))).
  intros event h Hh _. by apply reg_one_hooks in Hh as ->.
Defined.

(** "h1" disabled: the trigger does nothing at all. *)
Lemma trigger_all_disabled_witness :
  trigger id "e" 0%Z (start (disable_hook "h1" reg_one))
  = (Returned [], start (disable_hook "h1" reg_one)).
Proof.
  apply trigger_all_disabled. vm_compute. by repeat constructor.
Defined.

End DecoratorHooksFacts.


(** ** async_hooks.py *)

Module AsyncHooksFacts.
Import AsyncHooks.

(** *** AsyncHookRegistry *)

Section RegistryFacts.
Context {W Args Val Exn : Type}.

Local Abbreviation Hook := (@Hook W Args Val Exn).
Local Abbreviation State := (@State W Args Val Exn).
Local Abbreviation AsyncHookRegistry := (@AsyncHookRegistry W Args Val Exn).
Local Abbreviation Slots := (list (@slot Exn Val)).

Implicit Types (hooks before after : list Hook) (s : State) (args : Args).

(** The concurrent branch never raises: each hook body runs, and slot [i]
    of the result holds what hook [i] returned or raised. *)
Lemma gather_coroutines args hooks s :
  ∃ cs w,
    gather ((λ hook, coroutine hook args) <$> hooks) s
    = (Returned (slot_of <$> cs.*2), {| world := w; calls := calls s ++ cs |})
    ∧ cs.*1 = hooks.
Proof.
  revert s. induction hooks as [|h hooks IH]; intros s.
  - exists [], (world s). destruct s; simpl. by rewrite app_nil_r.
  - rewrite fmap_cons. simpl. unfold coroutine at 1.
    destruct (h args (world s)) as [o w1].
    edestruct IH as (cs & w & Heq & Hcs). unfold bind, ret. rewrite Heq.
    exists ((h, o) :: cs), w. split; [|by rewrite fmap_cons, Hcs].
    rewrite !fmap_cons. cbn [snd calls]. by rewrite <- app_assoc.
Qed.

(** A sequential run that returns has called every hook, each of which
    returned. *)
Lemma run_sequential_returned hooks args (results slots : Slots) s s1 :
  run_sequential hooks args results s = (Returned slots, s1) →
  ∃ vals,
    slots = results ++ (Value <$> vals)
    ∧ calls s1 = calls s ++ zip hooks (Returned <$> vals)
    ∧ length vals = length hooks.
Proof.
  revert results s. induction hooks as [|h hooks IH]; intros results s; simpl.
  - intros [= <- <-]. exists []. simpl. by rewrite !app_nil_r.
  - unfold bind, coroutine.
    destruct (h args (world s)) as [[v|e] w1]; [|done].
    intros Hrun. apply IH in Hrun as (vals & -> & Hcalls & Hlen).
    exists (v :: vals). simpl in *.
    rewrite <- !app_assoc in *. simpl in *. by rewrite Hlen.
Qed.

(** The first hook that raises ends a sequential run there and then. *)
Lemma run_sequential_first_failure before h after args (results slots : Slots)
    s s1 s2 (e : Exn) :
  run_sequential before args results s = (Returned slots, s1) →
  coroutine h args s1 = (Raised e, s2) →
  run_sequential (before ++ h :: after) args results s = (Raised e, s2).
Proof.
  revert results s. induction before as [|b before IH]; intros results s; simpl.
  - intros [= <- <-] Hh. unfold bind. by rewrite Hh.
  - unfold bind. destruct (coroutine b args s) as [[v|e'] s']; [|done].
    apply IH.
Qed.

Lemma coroutine_calls h args s (o : outcome Exn Val) s' :
  coroutine h args s = (o, s') → calls s' = calls s ++ [(h, o)].
Proof.
  unfold coroutine. destruct (h args (world s)) as [o' w]. by intros [= <- <-].
Qed.

Lemma run_hooks_sequential_failure before h after args (slots : Slots)
    s s1 s2 (e : Exn) :
  run_hooks false args before s = (Returned slots, s1) →
  coroutine h args s1 = (Raised e, s2) →
  run_hooks false args (before ++ h :: after) s = (Raised e, s2)
  ∧ ∃ vals, calls s2 = calls s ++ zip before (Returned <$> vals) ++ [(h, Raised e)]
            ∧ length vals = length before.
Proof.
  unfold run_hooks. intros Hbefore Hh. split.
  - by eapply run_sequential_first_failure.
  - apply run_sequential_returned in Hbefore as (vals & _ & Hcalls & Hlen).
    exists vals. apply coroutine_calls in Hh.
    by rewrite Hh, Hcalls, <- app_assoc.
Qed.

Lemma run_main_no_deadline
    (wait_for : M State Exn Slots → option Q → M State Exn Slots)
    (self : AsyncHookRegistry) (event : string) args (concurrent : bool)
    (timeout : option Q) :
  truthy timeout = false →
  run_main wait_for self event args concurrent timeout
  = run_hooks concurrent args (group (_hooks self) event).
Proof.
  unfold run_main, group. intros ->.
  by destruct concurrent, (_hooks self !! event).
Qed.

Section Groups.
Variable wait_for : M State Exn Slots → option Q → M State Exn Slots.
Implicit Types (self : AsyncHookRegistry) (event : string) (timeout : option Q).

Lemma run_pre_group self event args (concurrent : bool) :
  run_pre self event args concurrent
  = run_hooks concurrent args (group (_pre_hooks self) event).
Proof.
  unfold run_pre, group. by destruct concurrent, (_pre_hooks self !! event).
Qed.

Lemma run_post_group self event args (concurrent : bool) :
  run_post self event args concurrent
  = run_hooks concurrent args (group (_post_hooks self) event).
Proof.
  unfold run_post, group. by destruct concurrent, (_post_hooks self !! event).
Qed.

Lemma trigger_pre_raises self event args (concurrent : bool) timeout s (e : Exn) s' :
  run_pre self event args concurrent s = (Raised e, s') →
  trigger wait_for self event args concurrent timeout s = (Raised e, s').
Proof. unfold trigger, bind. by intros ->. Qed.


Lemma trigger_post_raises self event args (concurrent : bool) timeout s
    (pr mr : Slots) s1 s2 (e : Exn) s' :
  run_pre self event args concurrent s = (Returned pr, s1) →
  run_main wait_for self event args concurrent timeout s1 = (Returned mr, s2) →
  run_post self event args concurrent s2 = (Raised e, s') →
  trigger wait_for self event args concurrent timeout s = (Raised e, s').
Proof. unfold trigger, bind. by intros -> -> ->. Qed.

End Groups.

Section Deadline.
Variables (TimeoutError : Exn)
  (wait_for : M State Exn Slots → option Q → M State Exn Slots).
Hypothesis wait_for_spec : finishes_or_times_out TimeoutError wait_for.
Implicit Types (self : AsyncHookRegistry) (event : string) (timeout : option Q).

(** The main group, awaited directly or through [wait_for], gives what
    [run_hooks] gives unless the deadline was reached. *)
Lemma run_main_or_deadline self event args (concurrent : bool) timeout s :
  run_main wait_for self event args concurrent timeout s
  = run_hooks concurrent args (group (_hooks self) event) s
  ∨ (truthy timeout = true
     ∧ ∃ s', run_main wait_for self event args concurrent timeout s
             = (Raised TimeoutError, s')).
Proof using wait_for_spec.
  destruct (truthy timeout) eqn:Hto.
  - unfold run_main, group. rewrite Hto.
    destruct (_hooks self !! event) as [hooks|]; simpl.
    + destruct (wait_for_spec (run_hooks concurrent args hooks) timeout s)
        as [->|[s' ->]]; eauto.
    + left. by destruct concurrent.
  - left. by rewrite run_main_no_deadline.
Qed.

(** A concurrent [trigger]: the pre hooks all run; then, unless the deadline
    of the main group is reached, the main hooks and the post hooks all run
    and [trigger] returns, slot [i] of each list holding what hook [i] of the
    group returned or raised. *)
Lemma trigger_concurrent self event args timeout s :
  ∃ cp w1,
    run_pre self event args true s
    = (Returned (slot_of <$> cp.*2), {| world := w1; calls := calls s ++ cp |})
    ∧ cp.*1 = group (_pre_hooks self) event
    ∧ ((∃ cm cq w,
          trigger wait_for self event args true timeout s
          = (Returned {| pre := slot_of <$> cp.*2;
                         main := slot_of <$> cm.*2;
                         post := slot_of <$> cq.*2 |},
             {| world := w; calls := calls s ++ cp ++ cm ++ cq |})
          ∧ cm.*1 = group (_hooks self) event
          ∧ cq.*1 = group (_post_hooks self) event)
       ∨ (truthy timeout = true
          ∧ ∃ s', run_main wait_for self event args true timeout
                    {| world := w1; calls := calls s ++ cp |}
                  = (Raised TimeoutError, s')
                  ∧ trigger wait_for self event args true timeout s
                    = (Raised TimeoutError, s'))).
Proof using wait_for_spec.
  rewrite run_pre_group. unfold run_hooks at 1.
  destruct (gather_coroutines args (group (_pre_hooks self) event) s)
    as (cp & w1 & Hpre & Hcp).
  exists cp, w1. split; [done|]. split; [done|].
  assert (Htrigger :
    trigger wait_for self event args true timeout s
    = bind (run_main wait_for self event args true timeout)
        (λ main_results,
           bind (run_post self event args true)
             (λ post_results,
                ret {| pre := slot_of <$> cp.*2; main := main_results;
                       post := post_results |}))
        {| world := w1; calls := calls s ++ cp |}).
  { unfold trigger. unfold bind at 1. rewrite run_pre_group. unfold run_hooks at 1.
    by rewrite Hpre. }
  rewrite Htrigger. unfold bind.
  destruct (run_main_or_deadline self event args true timeout
              {| world := w1; calls := calls s ++ cp |}) as [->|[Hto [s' Hmain]]];
    [|rewrite Hmain].
  - left. rewrite run_post_group. unfold run_hooks.
    edestruct (gather_coroutines args (group (_hooks self) event))
      as (cm & w2 & -> & Hcm).
    edestruct (gather_coroutines args (group (_post_hooks self) event))
      as (cq & w3 & -> & Hcq).
    exists cm, cq, w3. simpl. by rewrite <- !app_assoc.
  - right. eauto.
Qed.


(** C8, as the code has it.  The pre and the post group go through the same
    [run_hooks] as the main group, with or without a timeout.  Run
    concurrently, every pre hook runs and, unless the deadline of the main
    group is reached, so does every post hook; the exception a hook raised
    stays in its slot of the list under ['pre'] or ['post'] and [trigger]
    returns; the one exception [trigger] can raise is the [TimeoutError] of
    the deadline.  Run sequentially, the first pre hook or post hook that
    raises ends [trigger] with its exception, in the state that hook left:
    no later hook and no later group runs. *)
Theorem pre_post_groups_run_like_main self event args timeout s :
  (∃ cp w1,
     run_pre self event args true s
     = (Returned (slot_of <$> cp.*2), {| world := w1; calls := calls s ++ cp |})
     ∧ cp.*1 = group (_pre_hooks self) event
     ∧ ((∃ cm cq w,
           trigger wait_for self event args true timeout s
           = (Returned {| pre := slot_of <$> cp.*2;
                          main := slot_of <$> cm.*2;
                          post := slot_of <$> cq.*2 |},
              {| world := w; calls := calls s ++ cp ++ cm ++ cq |})
           ∧ cm.*1 = group (_hooks self) event
           ∧ cq.*1 = group (_post_hooks self) event)
        ∨ (truthy timeout = true
           ∧ ∃ s', run_main wait_for self event args true timeout
                     {| world := w1; calls := calls s ++ cp |}
                   = (Raised TimeoutError, s')
                   ∧ trigger wait_for self event args true timeout s
                     = (Raised TimeoutError, s'))))
  ∧ (∀ before h after (slots : Slots) s1 (e : Exn) s2,
       group (_pre_hooks self) event = before ++ h :: after →
       run_hooks false args before s = (Returned slots, s1) →
       coroutine h args s1 = (Raised e, s2) →
       trigger wait_for self event args false timeout s = (Raised e, s2))
  ∧ (∀ (pr mr : Slots) sa sb before h after (slots : Slots) s1 (e : Exn) s2,
       run_pre self event args false s = (Returned pr, sa) →
       run_main wait_for self event args false timeout sa = (Returned mr, sb) →
       group (_post_hooks self) event = before ++ h :: after →
       run_hooks false args before sb = (Returned slots, s1) →
       coroutine h args s1 = (Raised e, s2) →
       trigger wait_for self event args false timeout s = (Raised e, s2)).
Proof using wait_for_spec.
  split; [apply trigger_concurrent|]. split.
  - intros before h after slots s1 e s2 Hgroup Hbefore Hh.
    apply trigger_pre_raises. rewrite run_pre_group, Hgroup.
    by eapply run_hooks_sequential_failure.
  - intros pr mr sa sb before h after slots s1 e s2 Hpre Hmain Hgroup Hbefore Hh.
    eapply trigger_post_raises; [done..|]. rewrite run_post_group, Hgroup.
    by eapply run_hooks_sequential_failure.
Qed.

End Deadline.

Section Trigger.
Variable wait_for : M State Exn Slots → option Q → M State Exn Slots.
Implicit Types (self : AsyncHookRegistry) (event : string) (timeout : option Q).

(** C10, as the code has it.  [if timeout:] is false for an absent or [None]
    timeout and for zero, and true for every other number, negative ones
    included.  In the first case the main group is awaited directly, whatever
    [wait_for] is; in the second the main group of a registered event is
    awaited through [wait_for], so a deadline applies. *)
Theorem deadline_iff_nonzero_timeout self event args (concurrent : bool) timeout :
  (truthy timeout = false ↔ timeout = None ∨ ∃ t, timeout = Some t ∧ (t == 0)%Q)
  ∧ (truthy timeout = false →
     run_main wait_for self event args concurrent timeout
     = run_hooks concurrent args (group (_hooks self) event)
     ∧ ∀ other_wait_for,
         trigger wait_for self event args concurrent timeout
         = trigger other_wait_for self event args concurrent None)
  ∧ (truthy timeout = true →
     (∃ t, timeout = Some t ∧ ¬ (t == 0)%Q)
     ∧ ∀ hooks, _hooks self !! event = Some hooks →
         run_main wait_for self event args concurrent timeout
         = wait_for (run_hooks concurrent args hooks) timeout).
Proof.
  assert (Hfalsy : truthy timeout = false
                   ↔ timeout = None ∨ ∃ t, timeout = Some t ∧ (t == 0)%Q).
  { destruct timeout as [t|]; simpl.
    - rewrite negb_false_iff, Qeq_bool_iff. split; [eauto|].
      by intros [|(t' & [= <-] & ?)].
    - split; eauto. }
  split; [done|]. split.
  - intros Hto. split; [by apply run_main_no_deadline|].
    intros other. unfold trigger.
    by rewrite (run_main_no_deadline wait_for _ _ _ _ timeout Hto),
      (run_main_no_deadline other _ _ _ _ None eq_refl).
  - intros Hto. split.
    + destruct timeout as [t|]; [|done]. exists t. split; [done|].
      intros Hz. simpl in Hto. apply negb_true_iff in Hto.
      apply Qeq_bool_iff in Hz. congruence.
    + intros hooks Hhooks. unfold run_main. by rewrite Hhooks, Hto.
Qed.

End Trigger.

End RegistryFacts.

(** *** AsyncHookContext *)

Section HookContextFacts.
Context {W Val Exn : Type}.

Local Abbreviation TeardownHook := (@TeardownHook W Val Exn).
Local Abbreviation ScopeState := (@ScopeState W Val Exn).

Lemma teardown_sweep_run (hooks : list TeardownHook) (s : ScopeState) :
  teardown_sweep hooks s (for_each hooks await_teardown s).
Proof.
  revert s. induction hooks as [|hook rest IH]; intros s; simpl.
  - constructor.
  - unfold bind, await_teardown.
    destruct (hook (_resources (ctx s)) (outside s)) as [[v|e] [r w]] eqn:Hhook.
    + eapply sweep_next; [done|]. apply IH.
    + by eapply sweep_raise.
Qed.

Lemma teardown_sweep_unique (hooks : list TeardownHook) (s : ScopeState) res :
  teardown_sweep hooks s res → res = for_each hooks await_teardown s.
Proof.
  induction 1 as [s|hook rest s v r w res Hhook _ IH|hook rest s e r w Hhook]; simpl.
  - done.
  - unfold bind, await_teardown. by rewrite Hhook.
  - unfold bind, await_teardown. by rewrite Hhook.
Qed.

(** C4, as the code has it.  [__aexit__] takes the teardown hooks in reverse
    registration order and hands each the current resource map; the first
    hook that raises ends the sweep, its exception is what [__aexit__] raises,
    and the hooks registered before it are not run.  When no hook raises all
    of them run and [__aexit__] returns [False]. *)
Theorem aexit_sweeps_until_first_failure (s : ScopeState) (o : outcome Exn bool)
    (s' : ScopeState) :
  __aexit__ s = (o, s')
  ↔ ∃ o', teardown_sweep (rev (_teardown_hooks (ctx s))) s (o', s')
          ∧ o = match o' with
                | Returned _ => Returned false
                | Raised e => Raised e
                end.
Proof.
  unfold __aexit__, bind, ret. split.
  - intros Hexit.
    pose proof (teardown_sweep_run (rev (_teardown_hooks (ctx s))) s) as Hsweep.
    destruct (for_each _ await_teardown s) as [[[]|e] s1];
      injection Hexit as <- <-; eauto.
  - intros (o' & Hsweep & ->). apply teardown_sweep_unique in Hsweep as <-.
    by destruct o'.
Qed.

End HookContextFacts.

(** *** AsyncPipeline *)

Section PipelineFacts.
Context {W Val Exn : Type}.
Variable not_awaitable : Val → Exn.

Local Abbreviation AsyncPipeline := (@AsyncPipeline W Val Exn).
Local Abbreviation Stage := (@Stage W Val Exn).
Local Abbreviation Handler := (@Handler W Val Exn).

Lemma process_from_nil (self : AsyncPipeline) i v w :
  _stages self !! i = None →
  process_from not_awaitable self i (drop i (_stages self)) v w = (Returned v, w).
Proof.
  intros Hi. apply lookup_ge_None in Hi. by rewrite drop_ge.
Qed.

Lemma process_from_cons (self : AsyncPipeline) i stage v w :
  _stages self !! i = Some stage →
  process_from not_awaitable self i (drop i (_stages self)) v w
  = match apply stage v w with
    | (Returned v', w') =>
        process_from not_awaitable self (S i) (drop (S i) (_stages self)) v' w'
    | (Raised e, w') =>
        match (_error_handlers self !! i : option Handler) with
        | Some handler =>
            match await_call not_awaitable handler v e w' with
            | (Returned v', w'') =>
                process_from not_awaitable self (S i) (drop (S i) (_stages self))
                  v' w''
            | (Raised e', w'') => (Raised e', w'')
            end
        | None => (Raised e, w')
        end
    end.
Proof.
  intros Hi. rewrite (drop_S _ _ _ Hi). simpl.
  unfold bind, try_except, await, raise.
  destruct (iscoroutinefunction stage);
    destruct (apply stage v w) as [[v'|e] w']; try done;
    destruct (_error_handlers self !! i) as [handler|]; try done;
    by destruct (await_call not_awaitable handler v e w') as [[v''|e'] w''].
Qed.

(** Awaiting the call of a coroutine function runs its body. *)
Lemma await_call_awaitable (handler : Handler) v (e : Exn) :
  gives_awaitable handler = true →
  await_call not_awaitable handler v e = invoke handler v e.
Proof. by destruct handler. Qed.

(** Awaiting what a plain function returned raises, whatever it returned. *)
Lemma await_call_plain (body : Val → Exn → W → outcome Exn Val * W) v e w :
  await_call not_awaitable (plain_def body) v e w
  = match body v e w with
    | (Returned r, w') => (Raised (not_awaitable r), w')
    | (Raised e', w') => (Raised e', w')
    end.
Proof.
  unfold await_call, bind, raise. by destruct (body v e w) as [[r|e'] w'].
Qed.

Section Awaitable.
Variable self : AsyncPipeline.
Hypothesis handlers_awaitable :
  ∀ i (handler : Handler),
    _error_handlers self !! i = Some handler → gives_awaitable handler = true.

Lemma processes_run (n i : nat) v w :
  length (_stages self) ≤ n + i →
  processes self i v w
    (process_from not_awaitable self i (drop i (_stages self)) v w).
Proof using handlers_awaitable.
  revert i v w. induction n as [|n IH]; intros i v w Hlen.
  - rewrite process_from_nil; [|by apply lookup_ge_None].
    constructor. by apply lookup_ge_None.
  - destruct (_stages self !! i) as [stage|] eqn:Hi.
    + rewrite (process_from_cons _ _ _ _ _ Hi).
      destruct (apply stage v w) as [[v'|e] w'] eqn:Hstage.
      * eapply proc_stage; [done..|]. apply IH. lia.
      * destruct (_error_handlers self !! i) as [handler|] eqn:Hh.
        -- rewrite (await_call_awaitable _ _ _ (handlers_awaitable _ _ Hh)).
           destruct (invoke handler v e w') as [[v''|e'] w''] eqn:Hhandler.
           ++ eapply proc_recover; [done..|]. apply IH. lia.
           ++ by eapply proc_handler_raises.
        -- by eapply proc_abort.
    + rewrite process_from_nil by done. by constructor.
Qed.

Lemma processes_unique i v w res :
  processes self i v w res →
  res = process_from not_awaitable self i (drop i (_stages self)) v w.
Proof using handlers_awaitable.
  induction 1 as [i v w Hi
                 |i stage v w v' w' res Hi Hstage _ IH
                 |i stage handler v w e w' v' w'' res Hi Hstage Hh Hhandler _ IH
                 |i stage handler v w e w' e' w'' Hi Hstage Hh Hhandler
                 |i stage v w e w' Hi Hstage Hh].
  - by rewrite process_from_nil.
  - by rewrite (process_from_cons _ _ _ _ _ Hi), Hstage.
  - by rewrite (process_from_cons _ _ _ _ _ Hi), Hstage, Hh,
      (await_call_awaitable _ _ _ (handlers_awaitable _ _ Hh)), Hhandler.
  - by rewrite (process_from_cons _ _ _ _ _ Hi), Hstage, Hh,
      (await_call_awaitable _ _ _ (handlers_awaitable _ _ Hh)), Hhandler.
  - by rewrite (process_from_cons _ _ _ _ _ Hi), Hstage, Hh.
Qed.

End Awaitable.

(** X30.  In a pipeline whose error handlers are coroutine functions,
    [process] takes the stages in index order and hands each the value the
    one before left.  When stage [i] raises and index [i] has a handler, the
    handler is awaited on the value stage [i] was given and the exception,
    what it returns is the next current value and stage [i + 1] follows; when
    stage [i] raises and has no handler the exception is the outcome of
    [process], in the state stage [i] left, so no later stage has run. *)
Theorem awaited_handlers_recover (self : AsyncPipeline) (data : Val) (w : W)
    (res : outcome Exn Val * W) :
  (∀ i (handler : Handler),
     _error_handlers self !! i = Some handler → gives_awaitable handler = true) →
  process not_awaitable self data w = res ↔ processes self 0 data w res.
Proof.
  intros Hawaitable. unfold process. rewrite <- (drop_0 (_stages self)) at 1. split.
  - intros <-. apply (processes_run self Hawaitable (length (_stages self))). lia.
  - intros Hres. by apply processes_unique in Hres.
Qed.

End PipelineFacts.

(** *** Scenarios *)

(** On a loop where hooks take no time, [wait_for_idle] is what
    [asyncio.wait_for] does. *)
Lemma wait_for_idle_finishes_or_times_out :
  finishes_or_times_out (Args := Z) "TimeoutError" (@wait_for_idle _).
Proof.
  intros aw [t|] s; simpl; [|by left].
  destruct (Qle_bool t 0); [right|left]; eauto.
Qed.

(** Pre hook [h1], main hooks [h2; h3], post hook [h2], where [h2] raises,
    triggered concurrently with a timeout of one second: all four bodies
    run and the exceptions sit in the slots of [h2]. *)
Example trigger_concurrent_under_deadline :
  trigger (@wait_for_idle _) reg_groups_fail "e" 0%Z true (Some 1%Q) start
  = (Returned {| pre := [Value 1%Z];
                 main := [ExcObj "boom"; Value 3%Z];
                 post := [ExcObj "boom"] |},
     {| world := ["h1"; "h2"; "h3"; "h2"];
        calls := [(h1, Returned 1%Z); (h2, Raised "boom"); (h3, Returned 3%Z);
                  (h2, Raised "boom")] |}).
Proof. reflexivity. Qed.

(** The same trigger run sequentially: [h2], first of the main group,
    raises; [h3] and the post group are not run. *)
Example trigger_sequential_under_deadline :
  trigger (@wait_for_idle _) reg_groups_fail "e" 0%Z false (Some 1%Q) start
  = (Raised "boom",
     {| world := ["h1"; "h2"];
        calls := [(h1, Returned 1%Z); (h2, Raised "boom")] |}).
Proof. reflexivity. Qed.


(** A pre hook that raises in a sequential trigger: the exception reaches
    the caller, and neither the second pre hook nor the main hook runs. *)
Lemma sequential_pre_failure_reaches_caller :
  let r := trigger (@wait_for_idle _) reg_pre_fails "e" 0%Z false None start in
  r.1 = Raised "boom" ∧ world r.2 = ["h2"] ∧ ¬ ∃ res, r.1 = Returned res.
Proof. vm_compute. split; [done|]. split; [done|]. by intros [res ?]. Qed.

(** The same trigger, through the general statement; and a concurrent
    trigger under a timeout, whose post hook raises. *)
Lemma pre_post_groups_run_like_main_witness :
  trigger (@wait_for_idle _) reg_pre_fails "e" 0%Z false None start
  = (Raised "boom", {| world := ["h2"]; calls := [(h2, Raised "boom")] |})
  ∧ ∃ cp w1,
      run_pre reg_groups_fail "e" 0%Z true start
      = (Returned (slot_of <$> cp.*2), {| world := w1; calls := calls start ++ cp |})
      ∧ cp.*1 = group (_pre_hooks reg_groups_fail) "e"
      ∧ ((∃ cm cq w,
            trigger (@wait_for_idle _) reg_groups_fail "e" 0%Z true (Some 1%Q) start
            = (Returned {| pre := slot_of <$> cp.*2;
                           main := slot_of <$> cm.*2;
                           post := slot_of <$> cq.*2 |},
               {| world := w; calls := calls start ++ cp ++ cm ++ cq |})
            ∧ cm.*1 = group (_hooks reg_groups_fail) "e"
            ∧ cq.*1 = group (_post_hooks reg_groups_fail) "e")
         ∨ (truthy (Some 1%Q) = true
            ∧ ∃ s',
                run_main (@wait_for_idle _) reg_groups_fail "e" 0%Z true (Some 1%Q)
                  {| world := w1; calls := calls start ++ cp |}
                = (Raised "TimeoutError", s')
                ∧ trigger (@wait_for_idle _) reg_groups_fail "e" 0%Z true (Some 1%Q)
                    start
                  = (Raised "TimeoutError", s'))).
Proof.
  pose proof wait_for_idle_finishes_or_times_out as Hwait.
  split.
  - exact (proj1 (proj2
      (pre_post_groups_run_like_main "TimeoutError" (@wait_for_idle _) Hwait
         reg_pre_fails "e" 0%Z None start))
      [] h2 [h3] _ _ _ _ eq_refl eq_refl eq_refl).
  - exact (proj1
      (pre_post_groups_run_like_main "TimeoutError" (@wait_for_idle _) Hwait
         reg_groups_fail "e" 0%Z (Some 1%Q) start)).
Defined.

(** A negative timeout is true in [if timeout:], so the main group is
    awaited under a deadline, which has passed already. *)
Lemma negative_timeout_sets_deadline :
  (trigger (@wait_for_idle _) reg_main "e" 0%Z true (Some (-1 # 1)%Q) start).1
  = Raised "TimeoutError"
  ∧ ¬ (0 < -1 # 1)%Q.
Proof. split; [reflexivity|]. by intros H; vm_compute in H. Qed.

(** A timeout of zero: [wait_for] is not reached, whatever it is. *)
Lemma deadline_iff_nonzero_timeout_witness :
  trigger (@wait_for_idle _) reg_main "e" 0%Z true (Some (0 # 1)%Q)
  = trigger (λ _ _, raise "unused") reg_main "e" 0%Z true None.
Proof.
  exact (proj2 (proj1 (proj2
    (deadline_iff_nonzero_timeout (@wait_for_idle _) reg_main "e" 0%Z true
       (Some (0 # 1)%Q))) eq_refl) _).
Defined.

(** On exit "t3" runs, "t2" raises, and "t1" is never run. *)
Lemma aexit_leaves_earlier_teardown_unrun :
  let r := __aexit__ {| ctx := scope3; outside := [] |} in
  r.1 = Raised "boom" ∧ outside r.2 = ["t3"; "t2"] ∧ "t1" ∉ outside r.2.
Proof.
  assert (Hexit : __aexit__ {| ctx := scope3; outside := [] |}
                  = (Raised "boom", {| ctx := scope3; outside := ["t3"; "t2"] |}))
    by reflexivity.
  cbv zeta. rewrite Hexit. simpl. split; [done|]. split; [done|].
  rewrite !elem_of_cons, elem_of_nil. by intros [|[|]].
Qed.

(** Recovery: stage 1, stage 2, its handler and stage 3 have run. *)
Example process_recovers :
  process await_int pipeline_recovering 5%Z 0 = (Returned 70%Z, 4).
Proof. reflexivity. Qed.

(** Abort: stage 1 and stage 2 have run, stage 3 has not. *)
Example process_aborts :
  process await_int pipeline_aborting 5%Z 0 = (Raised "bad", 2).
Proof. reflexivity. Qed.

Lemma awaited_handlers_recover_witness :
  process await_int pipeline_recovering 5%Z 0 = (Returned 70%Z, 4)
  ↔ processes pipeline_recovering 0 5%Z 0 (Returned 70%Z, 4).
Proof.
  apply (awaited_handlers_recover await_int pipeline_recovering 5%Z 0).
  intros i handler Hi.
  change (<[1 := fallback 7%Z]> (∅ : gmap nat Handler) !! i = Some handler) in Hi.
  apply lookup_insert_Some in Hi as [[_ <-]|[_ Hi]]; [done|].
  by rewrite lookup_empty in Hi.
Defined.

(** C3.  The three-stage pipeline of the specification with its handler
    written as a plain function, [lambda data, e: 7].  The claim has the
    handler's return value become the current value and stage 3 run on it,
    which gives 70 after four bodies have run.  [process] calls the handler
    and then awaits what it returned: [TypeError] is raised after three
    bodies have run, and stage 3 is never run.  A plain stage is called
    without [await]; a plain handler is not. *)
Theorem process_awaits_plain_handler_result :
  process await_int pipeline_plain_handler 5%Z 0
  = (Raised "TypeError: object int can't be used in 'await' expression", 3)
  ∧ processes pipeline_plain_handler 0 5%Z 0 (Returned 70%Z, 4)
  ∧ process await_int pipeline_recovering 5%Z 0 = (Returned 70%Z, 4).
Proof.
  split; [reflexivity|]. split; [|reflexivity].
  eapply proc_stage; [reflexivity..|].
  eapply (proc_recover _ 1 _ (plain_fallback 7%Z)); [reflexivity..|].
  eapply proc_stage; [reflexivity..|].
  by apply proc_end.
Qed.

(** *** Registries built by registration calls *)

Section RegistrationFacts.
Context {W Args Val Exn : Type}.

Local Abbreviation Hook := (@Hook W Args Val Exn).
Local Abbreviation State := (@State W Args Val Exn).
Local Abbreviation AsyncHookRegistry := (@AsyncHookRegistry W Args Val Exn).
Local Abbreviation Registered := (@Registered W Args Val Exn).
Local Abbreviation Slots := (list (@slot Exn Val)).

Implicit Types (self : AsyncHookRegistry) (event : string) (s : State)
  (args : Args) (timeout : option Q) (rs : list Registered)
  (wait_for : M State Exn Slots → option Q → M State Exn Slots).

Lemma group_append_hook (m : gmap string (list Hook)) event (e : string) (h : Hook) :
  group (append_hook e h m) event
  = if decide (e = event) then group m event ++ [h] else group m event.
Proof.
  unfold group, append_hook. rewrite lookup_insert.
  by destruct (decide (e = event)) as [->|].
Qed.

Lemma groups_of_registrations rs event :
  group (_pre_hooks (registry_of rs)) event = pre_of event rs
  ∧ group (_hooks (registry_of rs)) event = main_of event rs
  ∧ group (_post_hooks (registry_of rs)) event = post_of event rs.
Proof.
  induction rs as [|r rs (IHpre & IHmain & IHpost)] using rev_ind; [done|].
  unfold registry_of, pre_of, main_of, post_of in *.
  rewrite foldl_snoc, !omap_app.
  destruct r as [e h|e h|e h]; simpl; rewrite ?group_append_hook;
    destruct (decide (e = event)); simpl; rewrite ?app_nil_r;
    by rewrite ?IHpre, ?IHmain, ?IHpost.
Qed.

(** Concurrent mode, no deadline: the three groups in turn, every hook. *)
Lemma trigger_concurrent_no_deadline wait_for self event args timeout s :
  truthy timeout = false →
  ∃ cp cm cq w,
    trigger wait_for self event args true timeout s
    = (Returned {| pre := slot_of <$> cp.*2;
                   main := slot_of <$> cm.*2;
                   post := slot_of <$> cq.*2 |},
       {| world := w; calls := calls s ++ cp ++ cm ++ cq |})
    ∧ cp.*1 = group (_pre_hooks self) event
    ∧ cm.*1 = group (_hooks self) event
    ∧ cq.*1 = group (_post_hooks self) event.
Proof.
  intros Hto. unfold trigger, bind.
  rewrite run_pre_group, run_main_no_deadline, run_post_group by done.
  unfold run_hooks.
  destruct (gather_coroutines args (group (_pre_hooks self) event) s)
    as (cp & w1 & -> & Hcp).
  edestruct (gather_coroutines args (group (_hooks self) event))
    as (cm & w2 & -> & Hcm).
  edestruct (gather_coroutines args (group (_post_hooks self) event))
    as (cq & w3 & -> & Hcq).
  exists cp, cm, cq, w3. simpl. by rewrite <- !app_assoc.
Qed.

(** X14.  In a registry built by any sequence of [register],
    [register_pre] and [register_post] calls, each group of an event holds
    the hooks registered for it in that group, in the order of the calls;
    a concurrent [trigger] without timeout therefore returns, under ['pre'],
    ['main'] and ['post'], one slot for each such hook, in registration
    order. *)
Theorem results_follow_registration_order wait_for rs event args s :
  ∃ cp cm cq w,
    trigger wait_for (registry_of rs) event args true None s
    = (Returned {| pre := slot_of <$> cp.*2;
                   main := slot_of <$> cm.*2;
                   post := slot_of <$> cq.*2 |},
       {| world := w; calls := calls s ++ cp ++ cm ++ cq |})
    ∧ cp.*1 = pre_of event rs
    ∧ cm.*1 = main_of event rs
    ∧ cq.*1 = post_of event rs.
Proof.
  destruct (trigger_concurrent_no_deadline wait_for (registry_of rs) event args
              None s eq_refl) as (cp & cm & cq & w & Heq & Hcp & Hcm & Hcq).
  destruct (groups_of_registrations rs event) as (Hpre & Hmain & Hpost).
  exists cp, cm, cq, w. by rewrite Heq, Hcp, Hcm, Hcq, Hpre, Hmain, Hpost.
Qed.

(** X15.  For an event that is a key of none of the three dictionaries,
    [trigger] returns three empty lists and does nothing else, in either
    mode; a timeout changes nothing, [wait_for] is not reached. *)
Theorem trigger_unknown_event wait_for self event args (concurrent : bool)
    timeout s :
  _pre_hooks self !! event = None →
  _hooks self !! event = None →
  _post_hooks self !! event = None →
  trigger wait_for self event args concurrent timeout s
  = (Returned {| pre := []; main := []; post := [] |}, s).
Proof.
  intros Hpre Hmain Hpost.
  unfold trigger, run_pre, run_main, run_post, bind.
  by rewrite Hpre, Hmain, Hpost.
Qed.

(** X16.  A sequential [trigger] without deadline that returns has called
    every pre hook, then every main hook, then every post hook, each in
    list order, and every one of them returned: its three lists hold the
    values returned and no exception object. *)
Theorem sequential_trigger_returns_values wait_for self event args timeout s
    (res : @Results Val Exn) s' :
  truthy timeout = false →
  trigger wait_for self event args false timeout s = (Returned res, s') →
  ∃ vp vm vq : list Val,
    res = {| pre := Value <$> vp; main := Value <$> vm; post := Value <$> vq |}
    ∧ calls s' = calls s
                 ++ zip (group (_pre_hooks self) event) (Returned <$> vp)
                 ++ zip (group (_hooks self) event) (Returned <$> vm)
                 ++ zip (group (_post_hooks self) event) (Returned <$> vq)
    ∧ length vp = length (group (_pre_hooks self) event)
    ∧ length vm = length (group (_hooks self) event)
    ∧ length vq = length (group (_post_hooks self) event).
Proof.
  intros Hto. unfold trigger, bind.
  rewrite run_pre_group, run_main_no_deadline, run_post_group by done.
  unfold run_hooks.
  destruct (run_sequential (group (_pre_hooks self) event) args [] s)
    as [[pr|e] s1] eqn:Hpre; [|done].
  destruct (run_sequential (group (_hooks self) event) args [] s1)
    as [[mr|e] s2] eqn:Hmain; [|done].
  destruct (run_sequential (group (_post_hooks self) event) args [] s2)
    as [[qr|e] s3] eqn:Hpost; [|done].
  intros [= <- <-].
  apply run_sequential_returned in Hpre as (vp & -> & Hcp & Hlp).
  apply run_sequential_returned in Hmain as (vm & -> & Hcm & Hlm).
  apply run_sequential_returned in Hpost as (vq & -> & Hcq & Hlq).
  exists vp, vm, vq. rewrite Hcq, Hcm, Hcp, <- !app_assoc. done.
Qed.

End RegistrationFacts.

(** *** The scope of an [AsyncHookContext] *)

Section ScopeFacts.
Context {W Val Exn : Type}.

Local Abbreviation ScopeState := (@ScopeState W Val Exn).
Local Abbreviation SetupHook := (@SetupHook W Val Exn).

Implicit Types (s : ScopeState) (hooks : list SetupHook) (key : string).

Lemma for_each_app {S E A B} (xs ys : list A) (body : A → M S E B) (s : S) :
  for_each (xs ++ ys) body s = bind (for_each xs body) (λ _, for_each ys body) s.
Proof.
  revert s. induction xs as [|x xs IH]; intros s; simpl; [done|].
  unfold bind. destruct (body x s) as [[b|e] s1]; [|done].
  rewrite IH. done.
Qed.

Lemma aenter_steps s : __aenter__ s = for_each (_setup_hooks (ctx s)) setup_step s.
Proof. done. Qed.

Lemma setup_step_keeps_key (hook : SetupHook) key s :
  is_Some (get_resource key (ctx s)) →
  is_Some (get_resource key (ctx (setup_step hook s).2)).
Proof.
  unfold setup_step, bind, await_setup, resources_update, ret, get_resource.
  intros Hkey. destruct (hook (outside s)) as [[[d|v]|e] w]; simpl; try done.
  apply lookup_union_is_Some. by right.
Qed.

Lemma setup_steps_keep_key hooks key s :
  is_Some (get_resource key (ctx s)) →
  is_Some (get_resource key (ctx (for_each hooks setup_step s).2)).
Proof.
  revert s. induction hooks as [|hook hooks IH]; intros s Hkey; simpl; [done|].
  unfold bind. pose proof (setup_step_keeps_key hook key s Hkey) as Hstep.
  destruct (setup_step hook s) as [[[]|e] s1]; simpl in *; [by apply IH|done].
Qed.

(** X17.  [__aenter__] never drops a resource: a key present in the
    resource map before is present after, whether the setup hooks all
    returned or one of them raised. *)
Theorem aenter_keeps_resources key s :
  is_Some (get_resource key (ctx s)) →
  is_Some (get_resource key (ctx (__aenter__ s).2)).
Proof. rewrite aenter_steps. apply setup_steps_keep_key. Qed.

(** X18.  The last write wins: when the setup hook registered last returns
    a dictionary, [get_resource] gives its value for every key it holds,
    whatever the hooks before it stored there, and for any other key what
    those hooks left. *)
Theorem last_setup_hook_wins hooks (hook : SetupHook) s s1
    (d : gmap string Val) (w : W) :
  _setup_hooks (ctx s) = hooks ++ [hook] →
  for_each hooks setup_step s = (Returned (), s1) →
  hook (outside s1) = (Returned (IsDict d), w) →
  ∃ s',
    __aenter__ s = (Returned (), s')
    ∧ ∀ key, get_resource key (ctx s')
             = match d !! key with
               | Some v => Some v
               | None => get_resource key (ctx s1)
               end.
Proof.
  intros Hhooks Hbefore Hlast.
  rewrite aenter_steps, Hhooks, for_each_app. unfold bind. rewrite Hbefore.
  simpl. unfold bind, setup_step, bind, await_setup. rewrite Hlast. simpl.
  eexists. split; [done|]. intros key. unfold get_resource. simpl.
  destruct (d !! key) as [v|] eqn:Hkey.
  - by apply lookup_union_Some_l.
  - by apply lookup_union_r.
Qed.

Lemma aexit_returns_false s (b : bool) s' :
  __aexit__ s = (Returned b, s') → b = false.
Proof.
  unfold __aexit__, bind, ret.
  destruct (for_each _ await_teardown s) as [[[]|e] s1]; [|done].
  by intros [= <- _].
Qed.

(** X19.  An [async with] over the context completes without raising only
    if the setup hooks, the body and the teardown hooks all returned, and
    then with the body's value: an exception of the body is never
    suppressed, since [__aexit__] returns [False]. *)
Theorem scope_completes_only_if_all_returned {A} (body : M ScopeState Exn A) s
    (r : option A) s' :
  async_with body s = (Returned r, s') →
  ∃ (a : A) s1 s2,
    r = Some a
    ∧ __aenter__ s = (Returned (), s1)
    ∧ body s1 = (Returned a, s2)
    ∧ __aexit__ s2 = (Returned false, s').
Proof.
  unfold async_with.
  destruct (__aenter__ s) as [[[]|e] s1] eqn:Henter; [|done].
  destruct (body s1) as [[a|e] s2] eqn:Hbody.
  - destruct (__aexit__ s2) as [[b|e] s3] eqn:Hexit; [|done].
    intros [= <- <-]. exists a, s1, s2.
    by rewrite (aexit_returns_false _ _ _ Hexit) in Hexit.
  - destruct (__aexit__ s2) as [[b|e'] s3] eqn:Hexit; [|done].
    by rewrite (aexit_returns_false _ _ _ Hexit).
Qed.

End ScopeFacts.

(** *** Pipelines built by [add_stage] *)

Section BuildingFacts.
Context {W Val Exn : Type}.

Local Abbreviation Stage := (@Stage W Val Exn).
Local Abbreviation Handler := (@Handler W Val Exn).
Local Abbreviation AsyncPipeline := (@AsyncPipeline W Val Exn).

Variable not_awaitable : Val → Exn.

Local Abbreviation process_from := (process_from not_awaitable).
Local Abbreviation process := (process not_awaitable).
Local Abbreviation run_stage := (run_stage not_awaitable).
Local Abbreviation process_stream := (process_stream not_awaitable).

Implicit Types (self : AsyncPipeline) (specs : list (Stage * option Handler))
  (stages : list Stage) (w : W).

Lemma build_snoc specs (stage : Stage) (handler : option Handler) :
  build (specs ++ [(stage, handler)]) = add_stage stage handler (build specs).
Proof. unfold build. by rewrite foldl_snoc. Qed.

Lemma build_stages specs : _stages (build specs) = specs.*1.
Proof.
  induction specs as [|[stage handler] specs IH] using rev_ind; [done|].
  rewrite build_snoc, fmap_app. simpl. by rewrite IH.
Qed.

Lemma build_handlers specs (i : nat) :
  _error_handlers (build specs) !! i = specs !! i ≫= snd.
Proof.
  induction specs as [|[stage handler] specs IH] using rev_ind; [done|].
  rewrite build_snoc. unfold add_stage. simpl.
  rewrite build_stages, length_fmap.
  destruct (decide (i < length specs)) as [Hlt|Hge].
  - rewrite lookup_app_l by done.
    destruct handler; [rewrite lookup_insert_ne by lia|]; apply IH.
  - destruct (decide (i = length specs)) as [->|Hne].
    + rewrite list_lookup_middle by done. simpl.
      destruct handler as [h|]; [by rewrite lookup_insert_eq|].
      rewrite IH. by rewrite (proj2 (lookup_ge_None _ _)) by lia.
    + rewrite (proj2 (lookup_ge_None (specs ++ _) i))
        by (rewrite length_app; simpl; lia).
      destruct handler; [rewrite lookup_insert_ne by lia|];
        rewrite IH; by rewrite (proj2 (lookup_ge_None _ _)) by lia.
Qed.

(** X20.  A pipeline built by [add_stage] calls keeps the stages in the
    order they were added, and index [i] has a handler exactly when the
    [i]-th stage was added with one, namely that one: a handler never
    attaches to another stage, and no index beyond the stages has one. *)
Theorem build_keeps_stage_handlers specs (i : nat) :
  _stages (build specs) = specs.*1
  ∧ _error_handlers (build specs) !! i = specs !! i ≫= snd
  ∧ _error_handlers (build specs) !! (length specs + i) = None.
Proof.
  split; [apply build_stages|]. split; [apply build_handlers|].
  rewrite build_handlers.
  by rewrite (proj2 (lookup_ge_None _ _)) by lia.
Qed.

Lemma bind_ext {S E A B} (c : M S E A) (k k' : A → M S E B) (s : S) :
  (∀ a s', k a s' = k' a s') → bind c k s = bind c k' s.
Proof.
  intros Hk. unfold bind. destruct (c s) as [[a|e] s']; [apply Hk|done].
Qed.

Lemma process_from_app self (i : nat) stages stages' (v : Val) w :
  process_from self i (stages ++ stages') v w
  = bind (process_from self i stages v)
      (process_from self (i + length stages) stages') w.
Proof.
  revert i v w. induction stages as [|stage stages IH]; intros i v w; simpl.
  - by rewrite Nat.add_0_r.
  - unfold bind.
    destruct (try_except _ _ w) as [[v1|e] w1]; [|done].
    rewrite IH. unfold bind.
    by replace (i + S (length stages)) with (S i + length stages) by lia.
Qed.

Lemma process_from_ext self self' (i : nat) stages (v : Val) w :
  (∀ j, i ≤ j < i + length stages →
        _error_handlers self !! j = _error_handlers self' !! j) →
  process_from self i stages v w = process_from self' i stages v w.
Proof.
  revert i v w. induction stages as [|stage stages IH]; intros i v w Hagree;
    simpl; [done|].
  pose proof (Hagree i ltac:(simpl; lia)) as Hi.
  rewrite <- Hi.
  apply bind_ext. intros v1 w1. apply IH.
  intros j Hj. apply Hagree. simpl. lia.
Qed.

Lemma process_build_snoc specs (stage : Stage) (handler : option Handler)
    (data : Val) w :
  process (build (specs ++ [(stage, handler)])) data w
  = bind (process (build specs) data) (run_stage stage handler) w.
Proof.
  unfold process. rewrite !build_stages, fmap_app, process_from_app. simpl.
  unfold bind at 1 3.
  rewrite (process_from_ext (build (specs ++ [(stage, handler)])) (build specs)).
  - destruct (process_from (build specs) 0 specs.*1 data w) as [[v|e] w1]; [|done].
    rewrite length_fmap. unfold bind, try_except, run_stage, try_except, await, ret.
    rewrite build_handlers, list_lookup_middle by done. simpl.
    destruct (iscoroutinefunction stage);
      destruct (apply stage v w1) as [[v1|e1] w2]; try done;
      destruct handler as [h|]; try done;
      by destruct (await_call not_awaitable h v e1 w2) as [[v2|e2] w3].
  - intros j Hj. rewrite length_fmap in Hj. rewrite !build_handlers.
    by rewrite lookup_app_l by lia.
Qed.

(** X21.  Adding a stage extends what the pipeline computes: processing
    with the longer pipeline is processing with the shorter one and then
    running the new stage, under the handler it was added with, on the
    result; the pipeline with no stage returns its input. *)
Theorem add_stage_extends_process specs (stage : Stage)
    (handler : option Handler) (data : Val) w :
  process (build [] : AsyncPipeline) data w = (Returned data, w)
  ∧ process (add_stage stage handler (build specs)) data w
    = bind (process (build specs) data) (run_stage stage handler) w.
Proof.
  split; [done|]. rewrite <- build_snoc. apply process_build_snoc.
Qed.

Lemma process_plain (fs : list (Val → Val)) (data : Val) w :
  process (plain_pipeline fs) data w
  = (Returned (foldl (λ v f, f v) data fs), w).
Proof.
  unfold plain_pipeline. induction fs as [|f fs IH] using rev_ind; [done|].
  rewrite fmap_app. simpl. rewrite process_build_snoc. unfold bind.
  rewrite IH, foldl_snoc. done.
Qed.

(** X22.  A pipeline of plain functions computes their composition, the
    first stage applied first, and leaves the world alone; a stream run
    through it yields that composition of every item, one output for each
    input, in order, and ends without an exception. *)
Theorem plain_pipeline_composes (fs : list (Val → Val)) (data : Val)
    (data_stream : list Val) w :
  process (plain_pipeline fs) data w
  = (Returned (foldl (λ v f, f v) data fs), w)
  ∧ process_stream (plain_pipeline fs) data_stream w
    = (((λ item, foldl (λ v f, f v) item fs) <$> data_stream, None), w).
Proof.
  split; [apply process_plain|].
  induction data_stream as [|item rest IH]; simpl; [done|].
  by rewrite process_plain, IH.
Qed.

End BuildingFacts.

(** *** Scenarios for registrations and scopes *)

(** "zzz" was never registered in [reg_main]. *)
Lemma trigger_unknown_event_witness :
  trigger (@wait_for_idle _) reg_main "zzz" 0%Z false (Some (5 # 1)%Q) start
  = (Returned {| pre := []; main := []; post := [] |}, start).
Proof.
  exact (trigger_unknown_event (@wait_for_idle _) reg_main "zzz" 0%Z false
           (Some (5 # 1)%Q) start eq_refl eq_refl eq_refl).
Defined.

Lemma sequential_trigger_returns_values_witness :
  ∃ vp vm vq : list Z,
    {| pre := [Value 1%Z]; main := [Value 3%Z]; post := [] |}
    = {| pre := Value (E := string) <$> vp; main := Value <$> vm;
         post := Value <$> vq |}
    ∧ calls (trigger (@wait_for_idle _) reg_all_return "e" 0%Z false None start).2
      = calls start
        ++ zip (group (_pre_hooks reg_all_return) "e") (Returned <$> vp)
        ++ zip (group (_hooks reg_all_return) "e") (Returned <$> vm)
        ++ zip (group (_post_hooks reg_all_return) "e") (Returned <$> vq)
    ∧ length vp = length (group (_pre_hooks reg_all_return) "e")
    ∧ length vm = length (group (_hooks reg_all_return) "e")
    ∧ length vq = length (group (_post_hooks reg_all_return) "e").
Proof.
  exact (sequential_trigger_returns_values (@wait_for_idle _) reg_all_return "e"
           0%Z None start _ _ eq_refl eq_refl).
Defined.

(** "old" is still there after the two setup hooks have run. *)
Lemma aenter_keeps_resources_witness :
  is_Some (get_resource "old" (ctx (__aenter__ outside_scope).2)).
Proof.
  apply (aenter_keeps_resources "old" outside_scope). by eexists.
Defined.

(** Both hooks set "db"; the second one's value is the one read. *)
Lemma last_setup_hook_wins_witness :
  ∃ s',
    __aenter__ outside_scope = (Returned (), s')
    ∧ ∀ key, get_resource key (ctx s')
             = match ({[ "db" := 2%Z ]} : gmap string Z) !! key with
               | Some v => Some v
               | None =>
                   get_resource key
                     (ctx (for_each [provides "db" 1] setup_step outside_scope).2)
               end.
Proof.
  exact (last_setup_hook_wins [provides "db" 1] (provides "db" 2) outside_scope
           (for_each [provides "db" 1] setup_step outside_scope).2
           {[ "db" := 2%Z ]} ["db"; "db"] eq_refl eq_refl eq_refl).
Defined.

Lemma scope_completes_only_if_all_returned_witness :
  ∃ (a : option Z) s1 s2,
    Some (Some 2%Z) = Some a
    ∧ __aenter__ outside_scope = (Returned (), s1)
    ∧ read_db s1 = (Returned a, s2)
    ∧ __aexit__ s2 = (Returned false, (async_with read_db outside_scope).2).
Proof.
  exact (scope_completes_only_if_all_returned read_db outside_scope
           (Some (Some 2%Z)) (async_with read_db outside_scope).2 eq_refl).
Defined.

(** The pipeline of example_usage.py: double, add ten, square. *)
Example data_pipeline (x : Z) (w : nat) :
  process await_int
    (plain_pipeline [λ x, x * 2; λ x, x + 10; λ x, x ^ 2]%Z) x w
  = (Returned ((x * 2 + 10) ^ 2)%Z, w).
Proof. apply process_plain. Qed.

End AsyncHooksFacts.


(** ** agent_orchestration.py *)

Module AgentOrchestrationFacts.
Import AgentOrchestration.

Section OrchestratorFacts.
Context {W Any Exn : Type} (ValueError : string → Exn).

Local Abbreviation AgentMessage := (@AgentMessage Any).
Local Abbreviation AgentHook := (@AgentHook W Any Exn).
Local Abbreviation AgentOrchestrator := (@AgentOrchestrator W Any Exn).
Local Abbreviation State := (@State W Any Exn).
Local Abbreviation Execution := (@Execution W Any Exn).

Implicit Types (self : AgentOrchestrator) (s : State) (seq : list string)
  (messages : list AgentMessage) (initial current : AgentMessage).

Lemma run_sequence_chains self seq messages current s :
  chains self seq messages current s (run_sequence self seq messages current s).
Proof.
  revert messages current s.
  induction seq as [|agent_id rest IH]; intros messages current s; simpl.
  - constructor.
  - destruct (_agents self !! agent_id) as [agent|] eqn:Hagent.
    + unfold bind.
      destruct (execution agent current s) as [[result|e] s'] eqn:Hexec.
      * eapply chain_step; [done..|]. apply IH.
      * by eapply chain_fail.
    + apply chain_skip; [done|]. apply IH.
Qed.

Lemma chains_unique self seq messages current s res :
  chains self seq messages current s res →
  res = run_sequence self seq messages current s.
Proof.
  induction 1 as [messages current s
                 |agent_id rest messages current s res Hagent _ IH
                 |agent_id agent rest messages current s result s' res Hagent Hexec _ IH
                 |agent_id agent rest messages current s e s' Hagent Hexec]; simpl.
  - done.
  - by rewrite Hagent.
  - rewrite Hagent. unfold bind. by rewrite Hexec.
  - rewrite Hagent. unfold bind. by rewrite Hexec.
Qed.

(** The tasks of the parallel branch are the executions of the resolved
    agents, each on the same message. *)
Lemma parallel_tasks self seq current :
  omap (λ agent_id, (λ agent, execution agent current) <$> _agents self !! agent_id) seq
  = (λ agent, execution agent current) <$> resolved self seq.
Proof.
  unfold resolved. induction seq as [|agent_id rest IH]; simpl; [done|].
  destruct (_agents self !! agent_id); simpl; [f_equal|]; exact IH.
Qed.

Lemma gather_executions (agents : list AgentHook) current s :
  ∃ (evs : list Execution) w,
    gather ((λ agent, execution agent current) <$> agents) s
    = (Returned ((λ ev, slot_of (ended ev)) <$> evs),
       {| world := w; executed := executed s ++ evs |})
    ∧ ran <$> evs = agents
    ∧ Forall (λ ev, input ev = current) evs.
Proof.
  revert s. induction agents as [|agent agents IH]; intros s.
  - exists [], (world s). destruct s; simpl. by rewrite app_nil_r.
  - rewrite fmap_cons. simpl. unfold execution at 1.
    destruct (execute agent current (world s)) as [o w1].
    edestruct IH as (evs & w & Heq & Hran & Hin). unfold bind, ret. rewrite Heq.
    exists ({| ran := agent; input := current; ended := o |} :: evs), w.
    split; [|split].
    + rewrite fmap_cons. cbn [ended executed]. by rewrite <- app_assoc.
    + by rewrite fmap_cons, Hran.
    + by constructor.
Qed.

Lemma agent_messages_returned (evs : list Execution) :
  agent_messages ((λ ev, slot_of (ended ev)) <$> evs)
  = omap (λ ev, returned (ended ev)) evs.
Proof.
  unfold agent_messages.
  induction evs as [|[a m [r|e]] evs IH]; cbn; [done| |done].
  by f_equal.
Qed.

Lemma returned_raised_length (evs : list Execution) :
  length (omap (λ ev, returned (ended ev)) evs)
  + length (omap (λ ev, raised (ended ev)) evs) = length evs.
Proof.
  induction evs as [|[a m [r|e]] evs IH]; cbn; [done| |]; cbn in IH; lia.
Qed.

(** C5, as the code has it.  With [parallel=True], once the global hooks
    have returned, every registered agent of the workflow's sequence is
    executed on the one initial message, whether or not another agent
    raises; [execute_workflow] returns, and its list is the initial message
    followed by the results of the agents that returned, in sequence order:
    with [n] agents of which [k] raise it has [1 + (n - k)] entries. *)
Theorem parallel_workflow_fans_out self (workflow_name : string) seq initial s s1 :
  _workflows self !! workflow_name = Some seq →
  run_global_hooks self workflow_name initial s = (Returned (), s1) →
  ∃ (evs : list Execution) w,
    execute_workflow ValueError self workflow_name initial true s
    = (Returned (initial :: omap (λ ev, returned (ended ev)) evs),
       {| world := w; executed := executed s1 ++ evs |})
    ∧ ran <$> evs = resolved self seq
    ∧ Forall (λ ev, input ev = initial) evs
    ∧ length (initial :: omap (λ ev, returned (ended ev)) evs)
      = 1 + (length (resolved self seq)
             - length (omap (λ ev, raised (ended ev)) evs)).
Proof.
  intros Hwf Hglobal. unfold execute_workflow. rewrite Hwf.
  unfold bind at 1. rewrite Hglobal, parallel_tasks. unfold bind.
  destruct (gather_executions (resolved self seq) initial s1)
    as (evs & w & -> & Hran & Hin).
  exists evs, w. unfold ret. rewrite agent_messages_returned.
  repeat split; try done.
  rewrite <- Hran, length_fmap. simpl.
  pose proof (returned_raised_length evs). lia.
Qed.

(** C6.  With [parallel=False], once the global hooks have returned, the
    agent ids are taken in sequence; an id that is not registered is passed
    over; a registered agent is executed on the current message, which is
    the initial message at first and then the result of the agent executed
    before; its result is appended to the list and becomes the current
    message; when an execution raises, that exception is the outcome of
    [execute_workflow], in the state the execution left, so no later agent
    is executed. *)
Theorem sequential_workflow_chains self (workflow_name : string) seq initial s s1
    (res : outcome Exn (list AgentMessage) * State) :
  _workflows self !! workflow_name = Some seq →
  run_global_hooks self workflow_name initial s = (Returned (), s1) →
  execute_workflow ValueError self workflow_name initial false s = res
  ↔ chains self seq [initial] initial s1 res.
Proof.
  intros Hwf Hglobal. unfold execute_workflow. rewrite Hwf.
  unfold bind. rewrite Hglobal. split.
  - intros <-. apply run_sequence_chains.
  - intros Hres. by apply chains_unique in Hres.
Qed.

End OrchestratorFacts.

(** *** The workflow [A, B, C] in which B always raises *)

(** In parallel mode the list returned has three entries: the initial
    message, then the results of A and of C. *)
Lemma parallel_result_starts_with_initial_message :
  let r := execute_workflow value_error orchestrator_abc "abc" initial_message true idle in
  r.1 = Returned [initial_message;
                  Message PLANNER "A(x)" ∅ [initial_message];
                  Message REVIEWER "C(x)" ∅ [initial_message]]
  ∧ world r.2 = ["A"; "B"; "C"]
  ∧ ¬ ∃ messages, r.1 = Returned messages ∧ length messages = 2.
Proof.
  assert (Hrun : (execute_workflow value_error orchestrator_abc "abc"
                    initial_message true idle).1
                 = Returned [initial_message;
                             Message PLANNER "A(x)" ∅ [initial_message];
                             Message REVIEWER "C(x)" ∅ [initial_message]])
    by reflexivity.
  cbv zeta. rewrite Hrun. split; [done|]. split; [reflexivity|].
  by intros (messages & [= <-] & Hlen).
Qed.

(** The same run, through the general statement. *)
Lemma parallel_workflow_fans_out_witness :
  ∃ evs w,
    execute_workflow value_error orchestrator_abc "abc" initial_message true idle
    = (Returned (initial_message :: omap (λ ev, returned (ended ev)) evs),
       {| world := w; executed := executed idle ++ evs |})
    ∧ ran <$> evs = resolved orchestrator_abc ["A"; "B"; "C"]
    ∧ Forall (λ ev, input ev = initial_message) evs
    ∧ length (initial_message :: omap (λ ev, returned (ended ev)) evs)
      = 1 + (length (resolved orchestrator_abc ["A"; "B"; "C"])
             - length (omap (λ ev, raised (ended ev)) evs)).
Proof.
  exact (parallel_workflow_fans_out value_error orchestrator_abc "abc"
           ["A"; "B"; "C"] initial_message idle idle eq_refl eq_refl).
Defined.

(** In sequential mode A runs on the initial message, B on A's result; B's
    exception ends the workflow and C is never executed. *)
Lemma sequential_workflow_chains_witness :
  chains orchestrator_abc ["A"; "B"; "C"] [initial_message] initial_message idle
    (Raised "B failed",
     {| world := ["A"; "B"];
        executed :=
          [ {| ran := agent_A; input := initial_message;
               ended := Returned (Message PLANNER "A(x)" ∅ [initial_message]) |};
            {| ran := agent_B;
               input := Message PLANNER "A(x)" ∅ [initial_message];
               ended := Raised "B failed" |} ] |}).
Proof.
  exact (proj1 (sequential_workflow_chains value_error orchestrator_abc "abc"
                  ["A"; "B"; "C"] initial_message idle idle _ eq_refl eq_refl)
           eq_refl).
Defined.

(** *** Hooks around an agent, missing workflows, message history *)

Section HistoryFacts.
Context {W Any Exn : Type} (ValueError : string → Exn).

Local Abbreviation AgentMessage := (@AgentMessage Any).
Local Abbreviation AgentHook := (@AgentHook W Any Exn).
Local Abbreviation AgentOrchestrator := (@AgentOrchestrator W Any Exn).
Local Abbreviation State := (@State W Any Exn).
Local Abbreviation Execution := (@Execution W Any Exn).

Implicit Types (self : AgentOrchestrator) (agent : AgentHook) (s : State)
  (seq : list string) (messages results : list AgentMessage)
  (initial current m r : AgentMessage) (w : W).

Lemma execute_returned_inv agent m w r w' :
  execute agent m w = (Returned r, w') →
  ∃ w1 w2,
    for_each (_pre_hooks agent) (λ hook, hook m) w = (Returned (), w1)
    ∧ _process agent m w1 = (Returned r, w2)
    ∧ for_each (_post_hooks agent) (λ hook, hook m r) w2 = (Returned (), w').
Proof.
  unfold execute, bind, try_except, ret, raise.
  destruct (for_each (_pre_hooks agent) _ w) as [[[]|e] w1] eqn:Hpre; [|done].
  destruct (_process agent m w1) as [[r1|e] w2] eqn:Hproc.
  - destruct (for_each (_post_hooks agent) _ w2) as [[[]|e] w3] eqn:Hpost.
    + intros [= <- <-]. by exists w1, w2.
    + by destruct (for_each (_error_hooks agent) _ w3) as [[[]|e'] w4].
  - by destruct (for_each (_error_hooks agent) _ w2) as [[[]|e'] w3].
Qed.

(** X23.  [execute] returns a message exactly when every pre hook, the
    agent's [_process] and every post hook returned, in that order, and the
    message is the one [_process] returned: the hooks observe, they cannot
    replace the result. *)
Theorem execute_returns_iff_all_returned agent m w r w' :
  execute agent m w = (Returned r, w')
  ↔ ∃ w1 w2,
      for_each (_pre_hooks agent) (λ hook, hook m) w = (Returned (), w1)
      ∧ _process agent m w1 = (Returned r, w2)
      ∧ for_each (_post_hooks agent) (λ hook, hook m r) w2 = (Returned (), w').
Proof.
  split; [apply execute_returned_inv|].
  intros (w1 & w2 & Hpre & Hproc & Hpost).
  unfold execute, bind, try_except, ret. by rewrite Hpre, Hproc, Hpost.
Qed.

(** X24.  The error hooks see every failure inside the [try]: when
    [_process] raises, or when it returned and a post hook raises, each
    error hook is called on the input message and that exception, and
    [execute] then raises it, unless an error hook raised first, whose
    exception takes its place.  The result [_process] had returned is lost. *)
Theorem failures_reach_error_hooks agent m w w1 (e : Exn) :
  for_each (_pre_hooks agent) (λ hook, hook m) w = (Returned (), w1) →
  let after_error_hooks w2 :=
    let r := for_each (_error_hooks agent) (λ hook, hook m e) w2 in
    (match r.1 with Returned _ => Raised e | Raised e' => Raised e' end, r.2) in
  (∀ w2, _process agent m w1 = (Raised e, w2) →
         execute agent m w = after_error_hooks w2)
  ∧ (∀ r w2 w3,
       _process agent m w1 = (Returned r, w2) →
       for_each (_post_hooks agent) (λ hook, hook m r) w2 = (Raised e, w3) →
       execute agent m w = after_error_hooks w3).
Proof.
  intros Hpre. cbv zeta. unfold execute, bind, try_except, ret, raise.
  rewrite Hpre. split.
  - intros w2 ->. by destruct (for_each (_error_hooks agent) _ w2) as [[[]|e'] w3].
  - intros r w2 w3 -> ->.
    by destruct (for_each (_error_hooks agent) _ w3) as [[[]|e'] w4].
Qed.

Lemma run_global_hooks_executed self (name : string) initial s :
  executed (run_global_hooks self name initial s).2 = executed s.
Proof.
  unfold run_global_hooks. generalize (_global_hooks self). intros hooks.
  revert s. induction hooks as [|hook hooks IH]; intros s; simpl; [done|].
  unfold bind, on_world. destruct (hook name initial (world s)) as [[[]|e] w1].
  - by rewrite IH.
  - done.
Qed.

(** X25.  No agent is executed for a workflow that is not registered, nor
    once a global hook has raised: in the first case [execute_workflow]
    raises [ValueError] and nothing at all has run, in the second it raises
    the hook's exception in the state that hook left; parallel or not. *)
Theorem no_agent_runs_without_workflow self (name : string) initial
    (parallel : bool) s :
  (_workflows self !! name = None →
   execute_workflow ValueError self name initial parallel s
   = (Raised (ValueError ("Workflow " +:+ name +:+ " not found")), s))
  ∧ (∀ seq (e : Exn) s1,
       _workflows self !! name = Some seq →
       run_global_hooks self name initial s = (Raised e, s1) →
       execute_workflow ValueError self name initial parallel s = (Raised e, s1)
       ∧ executed s1 = executed s).
Proof.
  unfold execute_workflow. split.
  - by intros ->.
  - intros seq e s1 -> Hglobal. unfold bind. rewrite Hglobal.
    split; [done|].
    pose proof (run_global_hooks_executed self name initial s) as Hexec.
    by rewrite Hglobal in Hexec.
Qed.

Lemma resolved_nil self seq :
  resolved self seq = [] → Forall (λ agent_id, _agents self !! agent_id = None) seq.
Proof.
  unfold resolved. induction seq as [|agent_id rest IH]; simpl; [done|].
  destruct (_agents self !! agent_id) eqn:Hagent; [done|].
  intros Hrest. constructor; [done|]. by apply IH.
Qed.

Lemma run_sequence_unresolved self seq messages current s :
  Forall (λ agent_id, _agents self !! agent_id = None) seq →
  run_sequence self seq messages current s = (Returned messages, s).
Proof.
  induction 1 as [|agent_id rest Hagent _ IH]; simpl; [done|]. by rewrite Hagent.
Qed.

(** X26.  When none of the workflow's ids is a registered agent (the
    sequence may be empty), both modes return the list holding the initial
    message alone, and nothing runs after the global hooks. *)
Theorem unresolved_workflow_returns_initial self (name : string) seq initial
    (parallel : bool) s s1 :
  _workflows self !! name = Some seq →
  resolved self seq = [] →
  run_global_hooks self name initial s = (Returned (), s1) →
  execute_workflow ValueError self name initial parallel s
  = (Returned [initial], s1).
Proof.
  intros Hwf Hnone Hglobal. unfold execute_workflow. rewrite Hwf.
  unfold bind at 1. rewrite Hglobal. destruct parallel.
  - rewrite parallel_tasks, Hnone. done.
  - apply run_sequence_unresolved. by apply resolved_nil.
Qed.

Lemma execute_simple agent m w r w' :
  is_simple agent → execute agent m w = (Returned r, w') → made_from m r.
Proof.
  intros [processor Hproc] Hexec.
  apply execute_returned_inv in Hexec as (w1 & w2 & _ & Hp & _).
  rewrite Hproc in Hp. unfold simple_process, bind, ret in Hp.
  destruct (processor (content m) w1) as [[c|e] w3]; [|done].
  by injection Hp as <- _.
Qed.

Lemma execution_simple agent m s r s' :
  is_simple agent → execution agent m s = (Returned r, s') → made_from m r.
Proof.
  intros Hsimple. unfold execution.
  destruct (execute agent m (world s)) as [o w1] eqn:Hexec.
  intros [= -> _]. by eapply execute_simple.
Qed.

Lemma run_sequence_chain self seq messages current s (out : list AgentMessage) s' :
  (∀ agent_id agent, _agents self !! agent_id = Some agent → is_simple agent) →
  run_sequence self seq messages current s = (Returned out, s') →
  ∃ results, out = messages ++ results ∧ chain_from current results.
Proof.
  intros Hsimple. revert messages current s.
  induction seq as [|agent_id rest IH]; intros messages current s; simpl.
  - intros [= <- _]. exists []. by rewrite app_nil_r.
  - destruct (_agents self !! agent_id) as [agent|] eqn:Hagent; [|apply IH].
    unfold bind.
    destruct (execution agent current s) as [[r|e] s1] eqn:Hexec; [|done].
    intros Hrest. apply IH in Hrest as (results & -> & Hchain).
    exists (r :: results). rewrite <- app_assoc. split; [done|]. split; [|done].
    eapply execution_simple; [|done]. by eapply Hsimple.
Qed.

Lemma gather_executions_made (agents : list AgentHook) current s
    (slots : list (@slot Exn AgentMessage)) s' :
  Forall is_simple agents →
  gather ((λ agent, execution agent current) <$> agents) s = (Returned slots, s') →
  Forall (made_from current) (agent_messages slots).
Proof.
  intros Hsimple. revert s slots s'.
  induction Hsimple as [|agent agents Hagent _ IH]; intros s slots s'; simpl.
  - by intros [= <- _].
  - destruct (execution agent current s) as [o s1] eqn:Hexec.
    unfold bind, ret.
    destruct (gather _ s1) as [[rs|e] s2] eqn:Hrest; [|done].
    intros [= <- _]. apply IH in Hrest.
    destruct o as [r|e]; simpl; [|done].
    constructor; [|done]. by eapply execution_simple.
Qed.

(** X27.  With agents that process as [SimpleAgent] does, every message a
    workflow returns after the initial one carries the metadata of its
    input and the history of its input with that input appended: in
    sequential mode each message is made from the one before it in the
    list, in parallel mode each is made from the initial message. *)
Theorem simple_agents_chain_history self (name : string) initial
    (parallel : bool) s messages s' :
  (∀ agent_id agent, _agents self !! agent_id = Some agent → is_simple agent) →
  execute_workflow ValueError self name initial parallel s = (Returned messages, s') →
  ∃ results,
    messages = initial :: results
    ∧ if parallel then Forall (made_from initial) results
      else chain_from initial results.
Proof.
  intros Hsimple. unfold execute_workflow.
  destruct (_workflows self !! name) as [seq|]; [|done].
  unfold bind at 1.
  destruct (run_global_hooks self name initial s) as [[[]|e] s1]; [|done].
  destruct parallel.
  - rewrite parallel_tasks. unfold bind, ret.
    destruct (gather _ s1) as [[slots|e] s2] eqn:Hgather; [|done].
    intros [= <- _]. eexists. split; [done|].
    eapply gather_executions_made; [|done].
    apply Forall_forall. intros agent Hin. unfold resolved in Hin.
    apply list_elem_of_omap in Hin as (agent_id & _ & Hagent).
    by eapply Hsimple.
  - intros Hrun. by apply run_sequence_chain in Hrun as (results & -> & Hchain);
      [exists results|].
Qed.

End HistoryFacts.

(** A's processor ran, the post hook raised, the error hook was called
    with that exception, and the message A had produced is gone. *)
Lemma failures_reach_error_hooks_witness :
  execute agent_A_watched initial_message []
  = (Raised "post failed", ["A"; "post"; "error hook: post failed"]).
Proof.
  exact (proj2 (failures_reach_error_hooks agent_A_watched initial_message []
                  [] "post failed" eq_refl)
           (Message PLANNER "A(x)" ∅ [initial_message]) ["A"] ["A"; "post"]
           eq_refl eq_refl).
Defined.

(** The vetoing global hook: no agent of [A, B, C] is executed. *)
Lemma no_agent_runs_without_workflow_witness :
  execute_workflow value_error orchestrator_veto "abc" initial_message false idle
  = (Raised "veto abc", {| world := ["veto"]; executed := [] |})
  ∧ executed {| world := ["veto"]; executed := [] |} = executed idle.
Proof.
  exact (proj2 (no_agent_runs_without_workflow value_error orchestrator_veto
                  "abc" initial_message false idle)
           ["A"; "B"; "C"] "veto abc" _ eq_refl eq_refl).
Defined.

Lemma unresolved_workflow_returns_initial_witness :
  execute_workflow value_error orchestrator_ghosts "ghosts" initial_message true idle
  = (Returned [initial_message], idle).
Proof.
  exact (unresolved_workflow_returns_initial value_error orchestrator_ghosts
           "ghosts" ["x"; "y"] initial_message true idle idle
           eq_refl eq_refl eq_refl).
Defined.

Lemma orchestrator_ac_simple (agent_id : string)
    (agent : @AgentHook (list string) string string) :
  _agents orchestrator_ac !! agent_id = Some agent → is_simple agent.
Proof.
  unfold orchestrator_ac, register_workflow, register_agent. simpl.
  rewrite !lookup_insert.
  repeat (case_decide; [intros [= <-]; by eexists|]).
  by rewrite lookup_empty.
Qed.

(** A then C in sequence, "missing" passed over: C's message is made from
    A's, A's from the initial one. *)
Lemma simple_agents_chain_history_witness :
  ∃ results,
    [initial_message;
     Message PLANNER "A(x)" ∅ [initial_message];
     Message REVIEWER "C(A(x))" ∅
       [initial_message; Message PLANNER "A(x)" ∅ [initial_message]]]
    = initial_message :: results
    ∧ chain_from initial_message results.
Proof.
  exact (simple_agents_chain_history value_error orchestrator_ac "ac"
           initial_message false idle _ _ orchestrator_ac_simple eq_refl).
Defined.

End AgentOrchestrationFacts.


(** ** decorator_hooks.py: [retry_hook] *)

Module RetryHookFacts.
Import RetryHook.

Section RetryFacts.
Context {W Args Val Exn : Type} (TypeError ValueError : string → Exn).

Local Abbreviation State := (@State W Val Exn).

Implicit Types (func : Args → W → outcome Exn Val * W) (args : Args)
  (s : State) (delay : Q).

(** What the loop over the attempts [k, k+1, ..., k+m-1] does, [k + m]
    being [max_attempts]. *)
Lemma retry_loop_spec (m : nat) (k : Z) delay func args (last : option Exn) s :
  (0 <= delay)%Q →
  let max_attempts := (k + Z.of_nat m)%Z in
  let r := retry_loop TypeError ValueError max_attempts delay func args
             (seqZ k (Z.of_nat m)) last s in
  match r.1 with
  | Returned v =>
      ∃ es : list Exn,
        tried r.2 = tried s ++ (Raised <$> es) ++ [Returned v]
        ∧ length es < m
        ∧ slept r.2 = slept s ++ replicate (length es) delay
        ∧ logged r.2 = logged s ++ (warning_line <$> seqZ k (Z.of_nat (length es)))
  | Raised e =>
      (m = 0 ∧ r.2 = s
       ∧ e = default (TypeError "exceptions must derive from BaseException") last)
      ∨ ∃ es : list Exn,
          m = S (length es)
          ∧ tried r.2 = tried s ++ (Raised <$> es ++ [e])
          ∧ slept r.2 = slept s ++ replicate (length es) delay
          ∧ logged r.2 = logged s
                         ++ (warning_line <$> seqZ k (Z.of_nat (length es)))
                         ++ [error_line max_attempts]
  end.
Proof.
  intros Hdelay. revert k last s.
  induction m as [|m IH]; intros k last s; cbv zeta.
  - destruct last; cbn; by left.
  - rewrite seqZ_cons by lia.
    replace (Z.pred (Z.of_nat (S m))) with (Z.of_nat m) by lia.
    cbn [retry_loop]. unfold call_func.
    destruct (func args (world s)) as [[v|e] w] eqn:Hcall; cbn [fst snd].
    + exists []. cbn. rewrite !app_nil_r. split_and!; try done; lia.
    + destruct m as [|m].
      * rewrite (proj2 (Z.ltb_ge _ _)) by lia. cbn.
        right. exists []. cbn. by rewrite !app_nil_r.
      * rewrite (proj2 (Z.ltb_lt _ _)) by lia.
        unfold bind, time_sleep, log. cbn [world slept logged tried].
        rewrite (proj2 (Qle_bool_iff _ _) Hdelay).
        cbn [world slept logged tried].
        specialize (IH (Z.succ k) (Some e)
          {| world := w; slept := slept s ++ [delay];
             logged := logged s ++ [warning_line k];
             tried := tried s ++ [Raised e] |}).
        cbv zeta in IH.
        replace (Z.succ k + Z.of_nat (S m))%Z with (k + Z.of_nat (S (S m)))%Z
          in IH by lia.
        cbn [world slept logged tried] in IH.
        destruct (retry_loop _ _ _ _ _ _ _ _ _) as [[v|e'] s'];
          cbn [fst snd] in *.
        -- destruct IH as (es & Htried & Hlen & Hslept & Hlogged).
           exists (e :: es). cbn [length fmap list_fmap replicate].
           rewrite Htried, Hslept, Hlogged, <- !app_assoc.
           rewrite (seqZ_cons k (Z.of_nat (S (length es)))) by lia.
           rewrite fmap_cons.
           replace (Z.pred (Z.of_nat (S (length es))))
             with (Z.of_nat (length es)) by lia.
           split_and!; try done; lia.
        -- destruct IH as [(? & _)|(es & Hm & Htried & Hslept & Hlogged)];
             [done|].
           right. exists (e :: es). cbn [length fmap list_fmap replicate app].
           rewrite Htried, Hslept, Hlogged, <- !app_assoc.
           rewrite (seqZ_cons k (Z.of_nat (S (length es)))) by lia.
           rewrite fmap_cons.
           replace (Z.pred (Z.of_nat (S (length es))))
             with (Z.of_nat (length es)) by lia.
           split_and!; try done; lia.
Qed.

(** X7.  When the wrapper made by [retry_hook] returns, it returns the
    value of the first call of the function that returned; the calls before
    it all raised, there were fewer of them than [max_attempts], and each
    was followed by one [time.sleep(delay)] and one warning line. *)
Theorem retry_returns_first_success (max_attempts : Z) delay func args s
    (v : Val) s' :
  (0 <= delay)%Q →
  retry_hook TypeError ValueError max_attempts delay func args s = (Returned v, s') →
  ∃ es : list Exn,
    tried s' = tried s ++ (Raised <$> es) ++ [Returned v]
    ∧ (Z.of_nat (length es) < max_attempts)%Z
    ∧ slept s' = slept s ++ replicate (length es) delay
    ∧ logged s' = logged s ++ (warning_line <$> seqZ 0 (Z.of_nat (length es))).
Proof.
  intros Hdelay Hrun. unfold retry_hook in Hrun.
  destruct (decide (max_attempts <= 0)%Z) as [Hmax|Hmax].
  - by rewrite seqZ_nil in Hrun by done.
  - pose proof (retry_loop_spec (Z.to_nat max_attempts) 0 delay func args None s
                  Hdelay) as Hspec.
    cbv zeta in Hspec. rewrite Z.add_0_l, Z2Nat.id, Hrun in Hspec by lia.
    destruct Hspec as (es & ? & ? & ? & ?). exists es. split_and!; try done; lia.
Qed.



(** X9.  With [max_attempts] zero or negative the function is never called:
    the loop is empty, [raise last_exception] raises [None], and the caller
    gets a [TypeError]; nothing is slept or logged. *)
Theorem retry_without_attempts (max_attempts : Z) delay func args s :
  (max_attempts <= 0)%Z →
  retry_hook TypeError ValueError max_attempts delay func args s
  = (Raised (TypeError "exceptions must derive from BaseException"), s).
Proof. intros Hmax. unfold retry_hook. by rewrite seqZ_nil. Qed.

End RetryFacts.

(** [flaky 2] under three attempts: two failures, then the value. *)
Lemma retry_returns_first_success_witness :
  ∃ es : list string,
    tried (retry_hook id id 3 1 (flaky 2) 5%Z fresh).2
    = tried fresh ++ (Raised <$> es) ++ [Returned 7%Z]
    ∧ (Z.of_nat (length es) < 3)%Z
    ∧ slept (retry_hook id id 3 1 (flaky 2) 5%Z fresh).2
      = slept fresh ++ replicate (length es) 1%Q
    ∧ logged (retry_hook id id 3 1 (flaky 2) 5%Z fresh).2
      = logged fresh ++ (warning_line <$> seqZ 0 (Z.of_nat (length es))).
Proof.
  apply (retry_returns_first_success id id 3 1 (flaky 2) 5%Z fresh 7%Z).
  - by vm_compute.
  - reflexivity.
Defined.


(** The same under a delay of minus one second: one call, then the
    [ValueError] of [time.sleep]. *)
Example retry_negative_delay_raises :
  retry_hook id id 3 (-1 # 1) (flaky 5) 5%Z fresh
  = (Raised "sleep length must be non-negative",
     {| world := 1; slept := []; logged := []; tried := [Raised "failure 0"] |}).
Proof. reflexivity. Qed.

Lemma retry_without_attempts_witness :
  retry_hook id id 0 1 (flaky 0) 5%Z fresh
  = (Raised "exceptions must derive from BaseException", fresh).
Proof. apply (retry_without_attempts id id 0 1 (flaky 0) 5%Z fresh). lia. Defined.

End RetryHookFacts.


(** ** decorator_hooks.py: [cache_hook] *)

Module CacheHookFacts.
Import CacheHook.

Section CacheFacts.
Context {W Args Val Exn : Type} `{Countable Key}.
Context (key_of : Args → Key) (time_time : W → Q).

Local Abbreviation State := (@State W Val Key _ _).
Local Abbreviation PyFunc := (@DecoratorHooks.PyFunc W Args Val Exn).

Implicit Types (func : PyFunc) (args : Args) (s : State) (ttl : option Q).

(** A call that returns leaves its value in the cache under its key. *)
Lemma cache_hook_returned ttl func args s (v : Val) s' :
  cache_hook key_of time_time ttl func args s = (Returned v, s') →
  ∃ t, cache s' !! key_of args = Some (v, t).
Proof.
  unfold cache_hook, bind, call_func, store, logger_debug, ret.
  destruct (cache s !! key_of args) as [[v0 t0]|] eqn:Hkey.
  - destruct (still_valid ttl (time_time (world s)) t0).
    + intros [= <- <-]. simpl. eauto.
    + destruct (DecoratorHooks.call func args (world s)) as [[v1|e] w]; [|done].
      intros [= <- <-]. simpl. rewrite lookup_insert_eq. eauto.
  - destruct (DecoratorHooks.call func args (world s)) as [[v1|e] w]; [|done].
    intros [= <- <-]. simpl. rewrite lookup_insert_eq. eauto.
Qed.

(** Without a [ttl] an entry is never replaced. *)
Lemma cache_hook_keeps_entry func args s (key : Key) (entry : Val * Q) :
  cache s !! key = Some entry →
  cache (cache_hook key_of time_time None func args s).2 !! key = Some entry.
Proof.
  intros Hentry. unfold cache_hook, bind, call_func, store, logger_debug, ret.
  destruct (cache s !! key_of args) as [[v0 t0]|] eqn:Hkey; simpl; [done|].
  destruct (DecoratorHooks.call func args (world s)) as [[v1|e] w]; simpl; [|done].
  rewrite lookup_insert_ne; [done|]. intros <-. congruence.
Qed.

Lemma later_keeps_entry s1 s2 (key : Key) (entry : Val * Q) :
  later (Exn := Exn) key_of time_time None s1 s2 →
  cache s1 !! key = Some entry →
  cache s2 !! key = Some entry.
Proof.
  induction 1 as [s|s s1 func args _ IH|s s1 s2 _ IH Hcache]; intros Hentry.
  - done.
  - by apply cache_hook_keeps_entry, IH.
  - rewrite Hcache. by apply IH.
Qed.

(** X10.  Without a [ttl], once a call through the decorator has returned,
    every later call with the same key returns that value again, whatever
    calls through the decorator, with this key or others, and whatever else
    happened in between: the function is not called, the world and the
    cache stay as they are and one debug line is logged.  The cache belongs
    to the decorator, so this holds whichever function the later call
    wraps. *)
Theorem cache_hit_skips_function func args s (v : Val) s1
    (other : PyFunc) (args' : Args) s2 :
  cache_hook key_of time_time None func args s = (Returned v, s1) →
  later (Exn := Exn) key_of time_time None s1 s2 →
  key_of args' = key_of args →
  cache_hook key_of time_time None other args' s2
  = (Returned v,
     {| world := world s2; cache := cache s2;
        logged := logged s2 ++ [hit_line other] |}).
Proof.
  intros Hfirst Hlater Hkey.
  apply cache_hook_returned in Hfirst as [t Ht].
  apply (later_keeps_entry _ _ _ _ Hlater) in Ht.
  unfold cache_hook. rewrite Hkey, Ht. simpl.
  by unfold bind, logger_debug, ret.
Qed.


End CacheFacts.

(** [counting] is called on 5, then on 6, then [broken] on 7, which
    raises, and the clock moves on; the call after that, which wraps
    [broken], on 5 again, finds the entry and returns 5 without calling
    anything. *)
Lemma cache_hit_skips_function_witness :
  cache_hook id clock None broken 5%Z
    {| world := 9; cache := {[ 5%Z := (5%Z, clock 0); 6%Z := (7%Z, clock 1) ]};
       logged := [] |}
  = (Returned 5%Z,
     {| world := 9; cache := {[ 5%Z := (5%Z, clock 0); 6%Z := (7%Z, clock 1) ]};
        logged := ["Cache hit for broken"] |}).
Proof.
  refine (cache_hit_skips_function id clock counting 5%Z cold 5%Z
            (cache_hook id clock None counting 5%Z cold).2 broken 5%Z
            {| world := 9;
               cache := {[ 5%Z := (5%Z, clock 0); 6%Z := (7%Z, clock 1) ]};
               logged := [] |} eq_refl _ eq_refl).
  apply (later_elsewhere id clock None _
           (cache_hook id clock None broken 7%Z
              (cache_hook id clock None counting 6%Z
                 (cache_hook id clock None counting 5%Z cold).2).2).2);
    [|reflexivity].
  apply (later_call id clock None _ _ broken 7%Z).
  apply (later_call id clock None _ _ counting 6%Z).
  apply later_now.
Defined.


End CacheHookFacts.


(** ** decorator_hooks.py: [compose_hooks] and [ComposableDecorator] *)

Module CompositionFacts.
Import Composition.

Section ComposeFacts.
Context {S E F : Type}.

Implicit Types (decs outer inner : list (F → M S E F)) (fn : F) (s : S).

Lemma apply_each_app decs decs' fn s :
  apply_each (decs ++ decs') fn s
  = bind (apply_each decs fn) (apply_each decs') s.
Proof.
  revert fn s. induction decs as [|dec decs IH]; intros fn s; simpl; [done|].
  unfold bind. destruct (dec fn s) as [[g|e] s1]; [|done]. by rewrite IH.
Qed.

(** X12.  [compose_hooks] applies its decorators from the last listed to
    the first: composing [outer ++ inner] is composing [inner] and then
    [outer] on the result, and for decorators that only wrap,
    [compose_hooks(d1, ..., dn)(f)] is [d1(d2(... dn(f)))], the first listed
    being outermost. *)
Theorem compose_hooks_first_is_outermost outer inner (ds : list (F → F)) fn s :
  compose_hooks (outer ++ inner) fn s
  = bind (compose_hooks inner fn) (compose_hooks outer) s
  ∧ compose_hooks (S := S) (E := E) (plain <$> ds) fn s
    = (Returned (foldr (λ d g, d g) fn ds), s).
Proof.
  unfold compose_hooks. split.
  - by rewrite rev_app_distr, apply_each_app.
  - induction ds as [|d ds IH]; [done|].
    rewrite fmap_cons. simpl. rewrite apply_each_app. unfold bind.
    by rewrite IH.
Qed.

End ComposeFacts.

Section ComposableFacts.
Context {W Args Val Exn : Type}.

Local Abbreviation Callable := (@Callable W Args Val Exn).

Implicit Types (fn : Callable) (args : Args) (w : W).

Lemma check_conditions_pure (cs : list (Args → bool)) fn args
    (otherwise : M W Exn Val) w :
  check_conditions (pure_condition <$> cs) fn args otherwise w
  = if forallb (λ c, c args) cs then otherwise w else fn args w.
Proof.
  induction cs as [|c cs IH]; simpl; [done|].
  unfold bind, pure_condition at 1, ret. by destruct (c args).
Qed.

Lemma apply_transformations_pure (ts : list (Args → Args)) args w :
  apply_transformations (Exn := Exn) (pure_transformer <$> ts) args w
  = (Returned (foldl (λ a t, t a) args ts), w).
Proof.
  revert args. induction ts as [|t ts IH]; intros args; simpl; [done|].
  unfold bind, pure_transformer at 1, ret. apply IH.
Qed.

(** X13.  The wrapper of a [ComposableDecorator] calls the function on the
    arguments run through every transformation, in the order they were
    added, when all conditions hold of the original arguments; as soon as
    one does not, it calls the function on the original arguments and
    applies no transformation. *)
Theorem wrapper_transforms_iff_conditions_hold (o : option Callable)
    (cs : list (Args → bool)) (ts : list (Args → Args)) fn args w :
  wrapper {| func := o; _conditions := pure_condition <$> cs;
             _transformations := pure_transformer <$> ts |} fn args w
  = fn (if forallb (λ c, c args) cs then foldl (λ a t, t a) args ts else args) w.
Proof.
  unfold wrapper. simpl. rewrite check_conditions_pure.
  destruct (forallb _ cs); [|done].
  unfold bind. by rewrite apply_transformations_pure.
Qed.

End ComposableFacts.

End CompositionFacts.


(** ** async_hooks.py: [AsyncRateLimiter] *)

Module RateLimiterFacts.
Import RateLimiter.

Section LimiterFacts.
Context {W Args Val Exn : Type}.
Context (time_time : W → Q) (asyncio_sleep : Q → W → W) (IndexError : string → Exn).

Local Abbreviation State := (@State W).

Implicit Types (s : State) (func : Args → W → outcome Exn Val * W) (args : Args).

Lemma Qlt_bool_iff (a b : Q) : Qlt_bool a b = true ↔ (a < b)%Q.
Proof.
  unfold Qlt_bool. rewrite negb_true_iff, <- not_true_iff_false, Qle_bool_iff.
  split; [apply Qnot_le_lt|apply Qlt_not_le].
Qed.



(** X29.  With [max_calls] zero or negative and no call recorded within the
    period, the wrapper fails before the function runs: reading the oldest
    timestamp of the empty list raises [IndexError]. *)
Theorem limiter_without_capacity_raises func args s :
  (max_calls (limiter s) <= 0)%Z →
  Forall (λ call_time,
            ¬ (time_time (world s) - call_time < period (limiter s))%Q)
    (calls (limiter s)) →
  wrapper time_time asyncio_sleep IndexError func args s
  = (Raised (IndexError "list index out of range"), set_calls [] s).
Proof.
  intros Hmax Hold. unfold wrapper, bind, under_lock.
  assert (List.filter
            (λ call_time, Qlt_bool (time_time (world s) - call_time)
                            (period (limiter s)))
            (calls (limiter s)) = []) as ->.
  { induction Hold as [|c cs Hc _ IH]; simpl; [done|].
    destruct (Qlt_bool _ _) eqn:Hlt; [|done].
    by apply Qlt_bool_iff in Hlt. }
  simpl. by rewrite (proj2 (Z.leb_le _ _)) by lia.
Qed.

End LimiterFacts.


Lemma limiter_without_capacity_raises_witness :
  wrapper ticks sleep_through index_error echo 7%Z
    {| limiter := new_limiter 0 10; world := 4%Q; slept := [] |}
  = (Raised "IndexError: list index out of range",
     {| limiter := new_limiter 0 10; world := 4%Q; slept := [] |}).
Proof.
  apply (limiter_without_capacity_raises ticks sleep_through index_error echo 7%Z
           {| limiter := new_limiter 0 10; world := 4%Q; slept := [] |}).
  - simpl. lia.
  - constructor.
Defined.

End RateLimiterFacts.
